(** * Music playlist manager: filename parsing, scoring, scanning and search

    A shallow embedding of [music-playlist-manager.py] (classes [MusicFile]
    and [MusicDatabase]) together with the properties of its specification.

    Conventions of the embedding.
    - A Python [str] is a [list ascii]; a character is its code point, here
      restricted to 0..255 (Latin-1), classified as CPython classifies these
      code points ([str.isspace], [re]'s [\d], [\w], [\s], [str.lower]).
    - A Python [float] is a primitive binary64 [float]; Python's [<], [<=],
      [>=] are [PrimFloat.ltb] and [PrimFloat.leb].
    - A Python [int] is a [Z]; a [Set[str]] is a [gset str]; a [dict] is a
      [gmap].
    - A method that may assign to [self] is a function returning the new
      [self] (next to its result when it has one).
    - What the program takes from outside (file system, [mutagen],
      [difflib]) is a parameter: the records [World] and [Difflib]. *)

From Stdlib Require Import Ascii String ZArith QArith Qround Floats List Bool Lia.
From stdpp Require Import base option list gmap strings sorting pretty.
Import ListNotations.

#[local] Open Scope Z_scope.
#[local] Open Scope list_scope.

(** ** Python strings *)

Definition str := list ascii.

(** A string literal of the source. *)
Definition lit (s : string) : str := list_ascii_of_string s.

Definition ord (c : ascii) : N := N_of_ascii c.

Definition chr_eqb (a b : ascii) : bool := Ascii.eqb a b.

(** [ch.isspace()], which is also [\s] of a [str] pattern: the code points
    9-13, 28-32, 133 and 160 among 0..255. *)
Definition isspace (c : ascii) : bool :=
  let n := ord c in
  ((9 <=? n) && (n <=? 13) || (28 <=? n) && (n <=? 32) || (n =? 133) || (n =? 160))%N.

(** [\d] of a [str] pattern: the decimal digits; among 0..255 only 0-9. *)
Definition isdecimal (c : ascii) : bool :=
  let n := ord c in ((48 <=? n) && (n <=? 57))%N.

(** [ch.isalnum()] among 0..255: letters, decimal digits, the superscript
    digits and the vulgar fractions. *)
Definition isalnum (c : ascii) : bool :=
  let n := ord c in
  ((48 <=? n) && (n <=? 57) || (65 <=? n) && (n <=? 90) || (97 <=? n) && (n <=? 122)
   || (n =? 170) || (n =? 178) || (n =? 179) || (n =? 181) || (n =? 185) || (n =? 186)
   || (188 <=? n) && (n <=? 190)
   || (192 <=? n) && (n <=? 214) || (216 <=? n) && (n <=? 246) || (248 <=? n))%N.

(** [\w] of a [str] pattern: alphanumeric or the underscore. *)
Definition isword (c : ascii) : bool := isalnum c || chr_eqb c "_".

(** [ch.lower()] among 0..255: A-Z and the upper-case letters 192-222
    (without the multiplication sign 215) move up by 32. *)
Definition lower_char (c : ascii) : ascii :=
  let n := ord c in
  if ((65 <=? n) && (n <=? 90) || (192 <=? n) && (n <=? 222) && negb (n =? 215))%N
  then ascii_of_N (n + 32) else c.

(** [s.lower()] *)
Definition lower (s : str) : str := map lower_char s.

(** Truth value of a string: [if s:] holds when [s] is not empty. *)
Definition truthy (s : str) : bool :=
  match s with [] => false | _ :: _ => true end.

Fixpoint lstrip (s : str) : str :=
  match s with
  | [] => []
  | c :: s' => if isspace c then lstrip s' else s
  end.

Definition rstrip (s : str) : str := rev (lstrip (rev s)).

(** [s.strip()] *)
Definition strip (s : str) : str := rstrip (lstrip s).

(** [s.split()]: the maximal runs of non-whitespace characters, in order.
    [cur] is the run being read, reversed. *)
Fixpoint split_from (cur : str) (s : str) : list str :=
  match s with
  | [] => if truthy cur then [rev cur] else []
  | c :: s' =>
      if isspace c
      then (if truthy cur then rev cur :: split_from [] s' else split_from [] s')
      else split_from (c :: cur) s'
  end.

Definition split (s : str) : list str := split_from [] s.

Fixpoint startswith (s prefix : str) : bool :=
  match prefix, s with
  | [], _ => true
  | _ :: _, [] => false
  | a :: prefix', b :: s' => chr_eqb a b && startswith s' prefix'
  end.

(** [part in text] for strings: [part] occurs in [text] as a substring. *)
Fixpoint contains (text part : str) : bool :=
  startswith text part ||
  match text with
  | [] => false
  | _ :: text' => contains text' part
  end.

(** [s.rfind(c)] for a single character: the highest index, or -1. *)
Fixpoint rfind_from (i : Z) (found : Z) (c : ascii) (s : str) : Z :=
  match s with
  | [] => found
  | a :: s' => rfind_from (i + 1) (if chr_eqb a c then i else found) c s'
  end.

Definition rfind (s : str) (c : ascii) : Z := rfind_from 0 (-1) c s.

(** [s[i:j]], [s[:j]], [s[i:]] for indices that are not negative. *)
Definition slice (s : str) (i j : Z) : str :=
  take (Z.to_nat j - Z.to_nat i)%nat (drop (Z.to_nat i) s).
Definition slice_to (s : str) (j : Z) : str := take (Z.to_nat j) s.
Definition slice_from (s : str) (i : Z) : str := drop (Z.to_nat i) s.

(** [int(s)] for a string of decimal digits. *)
Definition int (s : str) : Z :=
  fold_left (fun acc c => 10 * acc + (Z.of_N (ord c) - 48)) s 0.

(** ** [os.path] (POSIX flavour: separator [/], no alternative separator) *)

(** [os.path.basename(p)]: [i = p.rfind('/') + 1; return p[i:]]. *)
Definition basename (p : str) : str := slice_from p (rfind p "/" + 1).

(** [os.path.splitext(p)]: the extension starts at the last dot of the last
    path component, unless that component has only dots before it. The
    [while] loop over [filenameIndex] looks for a character that is not a
    dot in [p[sepIndex+1:dotIndex]]. *)
Definition splitext (p : str) : str * str :=
  let sepIndex := rfind p "/" in
  let dotIndex := rfind p "." in
  if (sepIndex <? dotIndex)
     && existsb (fun c => negb (chr_eqb c ".")) (slice p (sepIndex + 1) dotIndex)
  then (slice_to p dotIndex, slice_from p dotIndex)
  else (p, []).

(** ** The fragment of [re] the program uses

    A pattern is a sequence of nodes: the anchors [^] and [$], the group
    parentheses, and a character class under a quantifier. Matching is the
    backtracking search of [re]: a greedy quantifier first takes one more
    character, a lazy one first tries the rest of the pattern. *)

Inductive quant : Type :=
  | Once        (* c   *)
  | Greedy0     (* c*  *)
  | Greedy1     (* c+  *)
  | Lazy0.      (* c*? *)

Inductive node : Type :=
  | Bol                                   (* ^ *)
  | Eol                                   (* $ *)
  | Open (g : nat)                        (* ( of group g *)
  | Close (g : nat)                       (* ) of group g *)
  | Chr (cls : ascii -> bool) (q : quant).

Definition regex := list node.

(** Group bookkeeping: where each open group started, and the span of each
    closed group. *)
Record captures : Type := {
  started : gmap nat nat;
  spans : gmap nat (nat * nat)
}.

Definition no_captures : captures := {| started := ∅; spans := ∅ |}.

Definition open_group (g pos : nat) (cs : captures) : captures :=
  {| started := <[g := pos]> (started cs); spans := spans cs |}.

Definition close_group (g pos : nat) (cs : captures) : captures :=
  match started cs !! g with
  | Some b => {| started := started cs; spans := <[g := (b, pos)]> (spans cs) |}
  | None => cs
  end.

(** [.] matches any character but a newline. *)
Definition dot (c : ascii) : bool := negb (chr_eqb c "010").

(** [$] matches at the end of the string and just before a final newline. *)
Definition at_end (s : str) : bool :=
  match s with
  | [] => true
  | [c] => chr_eqb c "010"
  | _ => false
  end.

Section Backtracking.
Context {R : Type}.
Variable cls : ascii -> bool.
(** [k] is the rest of the pattern, run from a position on the rest of the
    string. *)
Variable k : nat -> str -> captures -> option R.

Fixpoint greedy (pos : nat) (s : str) (cs : captures) : option R :=
  match s with
  | c :: s' =>
      if cls c
      then match greedy (S pos) s' cs with
           | Some r => Some r
           | None => k pos s cs
           end
      else k pos s cs
  | [] => k pos s cs
  end.

Fixpoint lazy (pos : nat) (s : str) (cs : captures) : option R :=
  match k pos s cs with
  | Some r => Some r
  | None =>
      match s with
      | c :: s' => if cls c then lazy (S pos) s' cs else None
      | [] => None
      end
  end.
End Backtracking.

(** Runs pattern [r] at position [pos], [s] being the string from there on;
    returns the end of the match and the groups. *)
Fixpoint run (r : regex) (pos : nat) (s : str) (cs : captures) : option (nat * captures) :=
  match r with
  | [] => Some (pos, cs)
  | Bol :: r' => if (pos =? 0)%nat then run r' pos s cs else None
  | Eol :: r' => if at_end s then run r' pos s cs else None
  | Open g :: r' => run r' pos s (open_group g pos cs)
  | Close g :: r' => run r' pos s (close_group g pos cs)
  | Chr cls Once :: r' =>
      match s with
      | c :: s' => if cls c then run r' (S pos) s' cs else None
      | [] => None
      end
  | Chr cls Greedy0 :: r' => greedy cls (run r') pos s cs
  | Chr cls Greedy1 :: r' =>
      match s with
      | c :: s' => if cls c then greedy cls (run r') (S pos) s' cs else None
      | [] => None
      end
  | Chr cls Lazy0 :: r' => lazy cls (run r') pos s cs
  end.

(** A match object: the string searched, the end of the match, the groups. *)
Record Match : Type := {
  m_string : str;
  m_end : nat;
  m_groups : captures
}.

(** [re.match(pattern, string)]: a match starting at the beginning. *)
Definition re_match (pattern : regex) (string : str) : option Match :=
  match run pattern 0 string no_captures with
  | Some (e, cs) => Some {| m_string := string; m_end := e; m_groups := cs |}
  | None => None
  end.

(** [m.group(g)] of a group that took part in the match. *)
Definition group (m : Match) (g : nat) : str :=
  match spans (m_groups m) !! g with
  | Some (b, e) => take (e - b)%nat (drop b (m_string m))
  | None => []
  end.

(** [re.sub(pattern, repl, string)] with a literal replacement: the matches
    are found from left to right and do not overlap. [skip] counts the
    characters of [s] still inside the match that was just replaced. An empty
    match is replaced, and the scan moves one character on. *)
Fixpoint sub_from (pattern : regex) (repl : str) (pos : nat) (skip : nat) (s : str) : str :=
  match s with
  | [] =>
      match skip, run pattern pos [] no_captures with
      | O, Some _ => repl
      | _, _ => []
      end
  | c :: s' =>
      match skip with
      | S n => sub_from pattern repl (S pos) n s'
      | O =>
          match run pattern pos s no_captures with
          | Some (e, _) =>
              if (e =? pos)%nat
              then repl ++ c :: sub_from pattern repl (S pos) 0 s'
              else repl ++ sub_from pattern repl (S pos) (e - pos - 1) s'
          | None => c :: sub_from pattern repl (S pos) 0 s'
          end
      end
  end.

Definition re_sub (pattern : regex) (repl : str) (string : str) : str :=
  sub_from pattern repl 0 0 string.

(** ** What the program takes from outside *)

(** A file as [mutagen] presents it: [audio.info.length] (seconds, the float
    as its exact rational value) and [audio.info.bitrate] when the attributes
    exist, whether [audio] has the attribute [tags], and [audio[key]] for
    the keys that are [in audio]. *)
Record Audio : Type := {
  info_length : option Q;
  info_bitrate : option Z;
  has_tags : bool;
  audio_keys : gmap str (list str)
}.

(** The outcome of [mutagen.File(path)]: an exception, a result that is
    false in a condition ([None] or an empty file object), or a file. *)
Inductive FileResult : Type :=
  | FileRaises
  | FileFalsy
  | FileAudio (audio : Audio).

Record World : Type := {
  (** [os.path.isdir] *)
  isdir : str -> bool;
  (** [os.path.getsize]; [None] when it raises [OSError] *)
  getsize : str -> option Z;
  (** [importlib.util.find_spec("mutagen") is not None] *)
  mutagen_installed : bool;
  (** [mutagen.File] *)
  mutagen_File : str -> FileResult;
  (** [os.walk(directory)]: the [(root, files)] pairs in the order of the walk *)
  walk : str -> list (str * list str)
}.

(** [difflib.SequenceMatcher(None, a, b).ratio()] *)
Class Difflib : Type := { ratio : str -> str -> float }.

(** ** class MusicFile *)

Record MusicFile : Type := {
  full_path : str;
  filename : str;
  extension : str;
  size : Z;
  artist : str;
  song : str;
  track_num : option Z;
  (** the dict [metadata]; empty until [__init__] assigns it *)
  metadata : gmap str str
}.

Definition set_artist (v : str) (self : MusicFile) : MusicFile :=
  {| full_path := full_path self; filename := filename self;
     extension := extension self; size := size self;
     artist := v; song := song self; track_num := track_num self;
     metadata := metadata self |}.

Definition set_song (v : str) (self : MusicFile) : MusicFile :=
  {| full_path := full_path self; filename := filename self;
     extension := extension self; size := size self;
     artist := artist self; song := v; track_num := track_num self;
     metadata := metadata self |}.

Definition set_track_num (v : option Z) (self : MusicFile) : MusicFile :=
  {| full_path := full_path self; filename := filename self;
     extension := extension self; size := size self;
     artist := artist self; song := song self; track_num := v;
     metadata := metadata self |}.

Definition set_metadata (v : gmap str str) (self : MusicFile) : MusicFile :=
  {| full_path := full_path self; filename := filename self;
     extension := extension self; size := size self;
     artist := artist self; song := song self; track_num := track_num self;
     metadata := v |}.

Definition is_char (a : ascii) : ascii -> bool := fun c => chr_eqb c a.

(** [r'^(\d+)[\s_-]*'] *)
Definition track_pattern : regex :=
  [Bol; Open 1; Chr isdecimal Greedy1; Close 1;
   Chr (fun c => isspace c || chr_eqb c "_" || chr_eqb c "-") Greedy0].

(** [r'^(.*?)\s*-\s*(.*?)$'] *)
Definition hyphen_pattern : regex :=
  [Bol; Open 1; Chr dot Lazy0; Close 1;
   Chr isspace Greedy0; Chr (is_char "-") Once; Chr isspace Greedy0;
   Open 2; Chr dot Lazy0; Close 2; Eol].

(** [r'^(.*?)_-_(.*?)$'] *)
Definition underscore_hyphen_pattern : regex :=
  [Bol; Open 1; Chr dot Lazy0; Close 1;
   Chr (is_char "_") Once; Chr (is_char "-") Once; Chr (is_char "_") Once;
   Open 2; Chr dot Lazy0; Close 2; Eol].

(** [r'^(.*?)_(.*?)$'] *)
Definition underscore_pattern : regex :=
  [Bol; Open 1; Chr dot Lazy0; Close 1;
   Chr (is_char "_") Once;
   Open 2; Chr dot Lazy0; Close 2; Eol].

Definition artist_first_patterns : list regex :=
  [hyphen_pattern; underscore_hyphen_pattern; underscore_pattern].

Definition song_first_patterns : list regex :=
  [hyphen_pattern; underscore_hyphen_pattern; underscore_pattern].

(** The loop over [artist_first_patterns]. The boolean tells whether the
    loop left the method by [return]. *)
Fixpoint try_artist_first (patterns : list regex) (name_without_ext : str)
    (self : MusicFile) : MusicFile * bool :=
  match patterns with
  | [] => (self, false)
  | pattern :: patterns' =>
      match re_match pattern name_without_ext with
      | Some m =>
          let self := set_artist (strip (group m 1)) self in
          let self := set_song (strip (group m 2)) self in
          if truthy (artist self) && truthy (song self)
          then (self, true)
          else try_artist_first patterns' name_without_ext self
      | None => try_artist_first patterns' name_without_ext self
      end
  end.

(** The loop over [song_first_patterns]. *)
Fixpoint try_song_first (patterns : list regex) (name_without_ext : str)
    (self : MusicFile) : MusicFile * bool :=
  match patterns with
  | [] => (self, false)
  | pattern :: patterns' =>
      match re_match pattern name_without_ext with
      | Some m =>
          let self := set_song (strip (group m 1)) self in
          let self := set_artist (strip (group m 2)) self in
          if truthy (artist self) && truthy (song self)
          then (self, true)
          else try_song_first patterns' name_without_ext self
      | None => try_song_first patterns' name_without_ext self
      end
  end.

(** The first lines of [_parse_filename]: the stem, and the stem once a
    leading track number is taken off, with the track number. *)
Definition stem (self : MusicFile) : str := fst (splitext (filename self)).

Definition extract_track (name_without_ext : str) : option Z * str :=
  match re_match track_pattern name_without_ext with
  | Some track_match =>
      (Some (int (group track_match 1)), re_sub track_pattern [] name_without_ext)
  | None => (None, name_without_ext)
  end.

(** The last statement of [_parse_filename]. *)
Definition whole_name_fallback (name_without_ext : str) (self : MusicFile) : MusicFile :=
  if negb (truthy (artist self)) && negb (truthy (song self))
  then set_song name_without_ext self
  else self.

Definition _parse_filename (self : MusicFile) : MusicFile :=
  let name_without_ext := stem self in
  let '(num, name_without_ext) := extract_track name_without_ext in
  let self := match num with
              | Some n => set_track_num (Some n) self
              | None => self
              end in
  let '(self, returned) := try_artist_first artist_first_patterns name_without_ext self in
  if returned then self else
  let '(self, returned) := try_song_first song_first_patterns name_without_ext self in
  if returned then self else
  whole_name_fallback name_without_ext self.

(** The parser as the specification describes it: the artist-first patterns,
    then the whole-name fallback, without the song-first pass. *)
Definition parse_artist_first_only (self : MusicFile) : MusicFile :=
  let name_without_ext := stem self in
  let '(num, name_without_ext) := extract_track name_without_ext in
  let self := match num with
              | Some n => set_track_num (Some n) self
              | None => self
              end in
  let '(self, returned) := try_artist_first artist_first_patterns name_without_ext self in
  if returned then self else
  whole_name_fallback name_without_ext self.

(** [f"{n:02d}"] *)
Definition format_02d (n : Z) : str :=
  let digits := lit (pretty n) in
  if (length digits <? 2)%nat then lit "0" ++ digits else digits.

(** [f"{minutes}:{seconds:02d}"] with [minutes = int(length_secs // 60)] and
    [seconds = int(length_secs % 60)]. *)
Definition format_length (length_secs : Q) : str :=
  let minutes := Qfloor (length_secs / 60) in
  let seconds := Qfloor (length_secs - 60 * inject_Z minutes) in
  lit (pretty minutes) ++ lit ":" ++ format_02d seconds.

(** [f"{audio.info.bitrate // 1000} kbps"] *)
Definition format_quality (bitrate : Z) : str :=
  lit (pretty (bitrate / 1000)) ++ lit " kbps".

(** [if not self.<field> and key in audio: self.<field> = audio[key][0]];
    [None] when the indexing raises (an empty list). *)
Definition fill_from_tag (current : str) (key : str) (audio : Audio) : option str :=
  if negb (truthy current)
  then match audio_keys audio !! key with
       | Some (v :: _) => Some v
       | Some [] => None
       | None => Some current
       end
  else Some current.

Definition tagged_extensions : list str :=
  [lit "mp3"; lit "flac"; lit "ogg"; lit "aac"; lit "m4a"].

(** [_extract_metadata]: returns the dict and the new [self]. An exception
    inside the [try] leaves the method with what was assigned so far. *)
Definition _extract_metadata (w : World) (self : MusicFile) : gmap str str * MusicFile :=
  let metadata : gmap str str :=
    <[lit "quality" := lit "Unknown"]> (<[lit "length" := lit "Unknown"]> ∅) in
  if bool_decide (extension self ∈ tagged_extensions) && mutagen_installed w
  then
    match mutagen_File w (full_path self) with
    | FileAudio audio =>
        let metadata :=
          match info_length audio with
          | Some length_secs => <[lit "length" := format_length length_secs]> metadata
          | None => metadata
          end in
        let metadata :=
          match info_bitrate audio with
          | Some bitrate => <[lit "quality" := format_quality bitrate]> metadata
          | None => metadata
          end in
        if has_tags audio
        then
          match fill_from_tag (artist self) (lit "artist") audio with
          | Some a =>
              let self := set_artist a self in
              match fill_from_tag (song self) (lit "title") audio with
              | Some t => (metadata, set_song t self)
              | None => (metadata, self)
              end
          | None => (metadata, self)
          end
        else (metadata, self)
    | FileFalsy | FileRaises => (metadata, self)
    end
  else (metadata, self).

(** The object after the first assignments of [__init__], before the call
    of [_parse_filename]. *)
Definition new_MusicFile (path : str) (sz : Z) : MusicFile :=
  {| full_path := path;
     filename := basename path;
     extension := slice_from (lower (snd (splitext path))) 1;
     size := sz;
     artist := [];
     song := [];
     track_num := None;
     metadata := ∅ |}.

(** [MusicFile(full_path)]; [None] when the constructor raises. *)
Definition MusicFile__init__ (w : World) (path : str) : option MusicFile :=
  match getsize w path with
  | None => None
  | Some sz =>
      let self := new_MusicFile path sz in
      let self := _parse_filename self in
      let '(md, self) := _extract_metadata w self in
      Some (set_metadata md self)
  end.

(** [r'[^\w\s]'] *)
Definition punctuation_pattern : regex :=
  [Chr (fun c => negb (isword c || isspace c)) Once].

(** [set(re.sub(r'[^\w\s]', ' ', s).split())] *)
Definition word_set (s : str) : gset str :=
  list_to_set (split (re_sub punctuation_pattern (lit " ") s)).

(** The text a query is matched against:
    [f"{self.filename.lower()} {self.artist.lower()} {self.song.lower()}"]. *)
Definition match_text (self : MusicFile) : str :=
  lower (filename self) ++ lit " " ++ lower (artist self) ++ lit " " ++ lower (song self).

(** [max(a, b, c)]: the first one is kept unless a later one is greater. *)
Definition max3 (a b c : float) : float :=
  let m := a in
  let m := if (m <? b)%float then b else m in
  if (m <? c)%float then c else m.

(** [match_query]: returns the score next to [self]. *)
Definition match_query `{Difflib} (query : str) (threshold : float)
    (self : MusicFile) : float * MusicFile :=
  let query := lower query in
  let query_parts := word_set query in
  let text := match_text self in
  let text_parts := word_set text in
  if negb (bool_decide (query_parts ≠ ∅))
     || negb (forallb (fun part => contains text part) (elements query_parts))
  then (0%float, self)
  else if (threshold <=? 0.5)%float
  then (1%float, self)
  else
    let full_match_score := ratio query text in
    let artist_song := lower (artist self) ++ lit " - " ++ lower (song self) in
    let artist_song_score := ratio query artist_song in
    let song_artist := lower (song self) ++ lit " - " ++ lower (artist self) in
    let song_artist_score := ratio query song_artist in
    (max3 full_match_score artist_song_score song_artist_score, self).

(** ** [sorted]

    [sorted(xs, key=key)] is a stable sort that compares keys with [<] only;
    with [reverse=True] the list is reversed, sorted the same way and
    reversed again, which is how [list.sort] keeps the sort stable. *)
Section Sorted.
Context {A : Type}.
Variable key : A -> float.

(** [x] stood before every element of [l]: it goes before the first
    element whose key is not below its own. *)
Fixpoint insert_stable (x : A) (l : list A) : list A :=
  match l with
  | [] => [x]
  | y :: l' =>
      if (key y <? key x)%float then y :: insert_stable x l' else x :: l
  end.

Fixpoint stable_sort (l : list A) : list A :=
  match l with
  | [] => []
  | x :: l' => insert_stable x (stable_sort l')
  end.

Definition sorted (reverse : bool) (l : list A) : list A :=
  if reverse
  then list.reverse (stable_sort (list.reverse l))
  else stable_sort l.
End Sorted.

(** ** class MusicDatabase

    [scan_thread] is the handle of the worker thread and
    [scan_progress_callback] the progress sink; the model is the program run
    with [progress_callback=None], its default, where every call of the sink
    is skipped. *)

Record MusicDatabase : Type := {
  music_files : list MusicFile;
  directories : list str;
  file_extensions : gset str;
  is_scanning : bool
}.

Definition set_music_files (v : list MusicFile) (self : MusicDatabase) : MusicDatabase :=
  {| music_files := v; directories := directories self;
     file_extensions := file_extensions self; is_scanning := is_scanning self |}.

Definition set_directories (v : list str) (self : MusicDatabase) : MusicDatabase :=
  {| music_files := music_files self; directories := v;
     file_extensions := file_extensions self; is_scanning := is_scanning self |}.

Definition set_file_extensions (v : gset str) (self : MusicDatabase) : MusicDatabase :=
  {| music_files := music_files self; directories := directories self;
     file_extensions := v; is_scanning := is_scanning self |}.

Definition set_is_scanning (v : bool) (self : MusicDatabase) : MusicDatabase :=
  {| music_files := music_files self; directories := directories self;
     file_extensions := file_extensions self; is_scanning := v |}.

Definition MusicDatabase__init__ : MusicDatabase :=
  {| music_files := [];
     directories := [];
     file_extensions :=
       list_to_set [lit "mp3"; lit "m4a"; lit "flac"; lit "ogg"; lit "aac"; lit "wav"];
     is_scanning := false |}.

Definition add_directory (w : World) (directory : str) (self : MusicDatabase)
    : bool * MusicDatabase :=
  if negb (isdir w directory) then (false, self)
  else if negb (bool_decide (directory ∈ directories self))
  then (true, set_directories (directories self ++ [directory]) self)
  else (false, self).

(** [l.remove(x)]: drops the first occurrence. *)
Fixpoint list_remove (x : str) (l : list str) : list str :=
  match l with
  | [] => []
  | y :: l' => if bool_decide (y = x) then l' else y :: list_remove x l'
  end.

Definition remove_directory (directory : str) (self : MusicDatabase)
    : bool * MusicDatabase :=
  if bool_decide (directory ∈ directories self)
  then (true, set_directories (list_remove directory (directories self)) self)
  else (false, self).

Definition set_extensions (extensions : gset str) (self : MusicDatabase) : MusicDatabase :=
  set_file_extensions extensions self.

(** [scan_directories]: refuses when a scan runs; otherwise raises the flag,
    empties [music_files] and starts the worker. *)
Definition scan_directories (self : MusicDatabase) : bool * MusicDatabase :=
  if is_scanning self then (false, self)
  else (true, set_music_files [] (set_is_scanning true self)).

(** [os.path.join(root, file)] *)
Definition path_join (a b : str) : str :=
  if startswith b (lit "/") then b
  else if negb (truthy a) || startswith (rev a) (lit "/") then a ++ b
  else a ++ lit "/" ++ b.

(** [ext = os.path.splitext(file)[1].lower()[1:]] *)
Definition file_ext (file : str) : str := slice_from (lower (snd (splitext file))) 1.

(** [ext in self.file_extensions] *)
Definition qualifies (file : str) (self : MusicDatabase) : bool :=
  bool_decide (file_ext file ∈ file_extensions self).

(** The body of the innermost loop of the second pass, after the test of the
    flag: a file with a wanted extension is built and appended, unless its
    constructor raises. *)
Definition scan_file (w : World) (root file : str) (self : MusicDatabase) : MusicDatabase :=
  if qualifies file self
  then
    let path := path_join root file in
    match MusicFile__init__ w path with
    | Some music_file => set_music_files (music_files self ++ [music_file]) self
    | None => self
    end
  else self.

(** The files the three nested loops go through, in order. *)
Definition listing (w : World) (self : MusicDatabase) : list (str * str) :=
  directory ← directories self;
  '(root, files) ← walk w directory;
  file ← files;
  [(root, file)].

(** The second pass; it leaves as soon as the flag is down. *)
Fixpoint scan_loop (w : World) (files : list (str * str)) (self : MusicDatabase)
    : MusicDatabase :=
  match files with
  | [] => self
  | (root, file) :: files' =>
      if negb (is_scanning self) then self
      else scan_loop w files' (scan_file w root file self)
  end.

(** [_scan_worker] run with no other thread in between; the [finally]
    clause lowers the flag. *)
Definition _scan_worker (w : World) (self : MusicDatabase) : MusicDatabase :=
  set_is_scanning false (scan_loop w (listing w self) self).

Definition cancel_scan (self : MusicDatabase) : MusicDatabase :=
  set_is_scanning false self.

(** The states of the database that another thread can see while the worker
    goes through [files]: the state before each file, and the state at the
    end. *)
Fixpoint scan_trace (w : World) (files : list (str * str)) (self : MusicDatabase)
    : list MusicDatabase :=
  match files with
  | [] => [self]
  | (root, file) :: files' =>
      if negb (is_scanning self) then [self]
      else self :: scan_trace w files' (scan_file w root file self)
  end.

(** One step of the database while a scan is under way: the worker handles
    the next file of its walk (whichever it is), the worker ends, or another
    thread cancels or changes the configuration. *)
Inductive scan_step (w : World) : MusicDatabase -> MusicDatabase -> Prop :=
  | step_file root file self :
      is_scanning self = true ->
      scan_step w self (scan_file w root file self)
  | step_finally self :
      scan_step w self (set_is_scanning false self)
  | step_cancel self :
      scan_step w self (cancel_scan self)
  | step_set_extensions extensions self :
      scan_step w self (set_extensions extensions self)
  | step_add_directory directory self :
      scan_step w self (snd (add_directory w directory self))
  | step_remove_directory directory self :
      scan_step w self (snd (remove_directory directory self)).

(** The loop of [search] and the inner loop of [match_playlist] over
    [self.music_files]: the matches found, and the files after the calls of
    [match_query] on them. *)
Fixpoint match_loop `{Difflib} (query : str) (threshold : float)
    (files : list MusicFile) : list (MusicFile * float) * list MusicFile :=
  match files with
  | [] => ([], [])
  | music_file :: files' =>
      let '(score, music_file) := match_query query threshold music_file in
      let '(results, files') := match_loop query threshold files' in
      (if (threshold <=? score)%float then (music_file, score) :: results else results,
       music_file :: files')
  end.

Definition search `{Difflib} (query : str) (threshold : float) (self : MusicDatabase)
    : list (MusicFile * float) * MusicDatabase :=
  if negb (truthy (strip query)) then ([], self)
  else
    let '(results, files) := match_loop query threshold (music_files self) in
    let self := set_music_files files self in
    (sorted snd true results, self).

Fixpoint match_playlist `{Difflib} (playlist_entries : list str) (threshold : float)
    (self : MusicDatabase) : list (str * list (MusicFile * float)) * MusicDatabase :=
  match playlist_entries with
  | [] => ([], self)
  | entry :: playlist_entries' =>
      let '(entry_matches, files) := match_loop entry threshold (music_files self) in
      let self := set_music_files files self in
      let sorted_matches := sorted snd true entry_matches in
      let '(results, self) := match_playlist playlist_entries' threshold self in
      ((entry, sorted_matches) :: results, self)
  end.

(** ** Notions the properties are stated with *)

(** [part] occurs in [text]. *)
Definition substring (part text : str) : Prop :=
  exists before after : str, text = before ++ part ++ after.

(** What the parser makes of a path: artist, song and track number of the
    object after [_parse_filename]. *)
Definition parsed (path : str) (sz : Z) : str * str * option Z :=
  let self := _parse_filename (new_MusicFile path sz) in
  (artist self, song self, track_num self).

(** The name the split patterns are tried on: the stem without its leading
    track number. *)
Definition detracked_stem (self : MusicFile) : str := snd (extract_track (stem self)).

(** The object when the loop over the artist-first patterns is over, and
    whether that loop returned. *)
Definition artist_first_pass (self : MusicFile) : MusicFile * bool :=
  let '(num, name_without_ext) := extract_track (stem self) in
  let self := match num with
              | Some n => set_track_num (Some n) self
              | None => self
              end in
  try_artist_first artist_first_patterns name_without_ext self.

(** The artist-first loop ended without returning and left exactly one of
    the two fields empty. *)
Definition one_sided_split (self : MusicFile) : bool :=
  let '(self, returned) := artist_first_pass self in
  negb returned && xorb (truthy (artist self)) (truthy (song self)).

(** Artist and song change places. *)
Definition exchange (self : MusicFile) : MusicFile :=
  set_artist (song self) (set_song (artist self) self).

(** The score of a file for a query. *)
Definition score `{Difflib} (query : str) (threshold : float) (f : MusicFile) : float :=
  fst (match_query query threshold f).

(** The files whose score reaches the threshold, each with its score, in
    the order of [music_files]. *)
Definition scored `{Difflib} (query : str) (threshold : float) (self : MusicDatabase)
    : list (MusicFile * float) :=
  filter (fun p => (threshold <=? snd p)%float = true)
         (map (fun f => (f, score query threshold f)) (music_files self)).

(** The filter and sort that [search] runs on a query that is not blank. *)
Definition filter_and_sort `{Difflib} (query : str) (threshold : float)
    (self : MusicDatabase) : list (MusicFile * float) :=
  sorted snd true (scored query threshold self).

(** In descending order of score. *)
Definition descending (l : list (MusicFile * float)) : Prop :=
  StronglySorted (fun a b => (snd b <=? snd a)%float = true) l.

(** The entries of [l] whose score equals [v]. *)
Definition with_score (v : float) (l : list (MusicFile * float)) : list (MusicFile * float) :=
  filter (fun p => (snd p =? v)%float = true) l.

(** An extension as the specification wants it stored: a leading dot taken
    off, lower-cased. *)
Definition normalized (e : str) : str :=
  lower (if startswith e (lit ".") then slice_from e 1 else e).

(** The token set of a query as the specification words it: the query in
    lower case, every character that is neither alphanumeric nor whitespace
    replaced by a space, split at whitespace. The underscore is such a
    character here, where [word_set] keeps it. *)
Definition alphanumeric_word_set (query : str) : gset str :=
  list_to_set
    (split (map (fun c => if negb (isalnum c || isspace c) then " "%char else c)
                (lower query))).

(** ** More of the program: the start of the application and whole scans *)

(** [MusicPlaylistManagerApp.__init__]: the directories of the settings are
    added one by one,
    [for directory in ...: self.music_db.add_directory(directory)]. *)
Definition load_directories (w : World) (dirs : list str) (self : MusicDatabase)
    : MusicDatabase :=
  foldl (fun db directory => snd (add_directory w directory db)) self dirs.

(** What the second pass makes of one file of the walk: the record, when the
    extension is wanted and the constructor does not raise. *)
Definition built (w : World) (self : MusicDatabase) (rf : str * str) : option MusicFile :=
  if qualifies (snd rf) self
  then MusicFile__init__ w (path_join (fst rf) (snd rf))
  else None.

(** A scan from its start to the end of the worker, no other thread
    stepping in. *)
Definition full_scan (w : World) (self : MusicDatabase) : MusicDatabase :=
  _scan_worker w (snd (scan_directories self)).

(** The directory part that [os.path.join] puts before a file name: nothing,
    or something that ends with the separator. *)
Definition dir_prefix (a : str) : Prop := a = [] \/ exists a', a = a' ++ ["/"%char].

(** The test of [match_query] that lets a file through to a score above
    zero: the query has words, and each of them occurs in the text of the
    file. *)
Definition passes_gate (query : str) (self : MusicFile) : bool :=
  bool_decide (word_set (lower query) ≠ ∅)
  && forallb (fun part => contains (match_text self) part)
             (elements (word_set (lower query))).

(** The file with file name, artist and song in lower case. *)
Definition lower_cased (self : MusicFile) : MusicFile :=
  {| full_path := full_path self; filename := lower (filename self);
     extension := extension self; size := size self;
     artist := lower (artist self); song := lower (song self);
     track_num := track_num self; metadata := metadata self |}.

(** What [re.sub(r'[^\w\s]', ' ', s)] does to one character. *)
Definition unpunctuate (c : ascii) : ascii :=
  if negb (isword c || isspace c) then " "%char else c.

(** The length of the longest beginning of [s] made of characters of the
    class [cls]. *)
Fixpoint run_length (cls : ascii -> bool) (s : str) : nat :=
  match s with
  | c :: s' => if cls c then S (run_length cls s') else O
  | [] => O
  end.

(** The characters the track pattern lets follow the digits: [[\s_-]]. *)
Definition track_separator (c : ascii) : bool :=
  isspace c || chr_eqb c "_" || chr_eqb c "-".

(** ** The playlist tab

    [load_playlist] keeps of the lines of the file
    [[line.strip() for line in lines if line.strip()]]. *)
Definition playlist_entries (lines : list str) : list str :=
  (fun line => strip line) <$> filter (fun line => truthy (strip line) = true) lines.

(** ** The directory list of the main window

    [dir_listbox] is the Tk listbox, a list of rows: [insert(END, x)] puts a
    row at the end, [get(i)] is row [i], or the empty string past the end,
    [delete(i)] drops row [i] and does nothing past the end, and
    [curselection()] is the tuple of the selected indices.
    [saved_directories] is the entry ["directories"] of the settings. *)
Record App : Type := {
  music_db : MusicDatabase;
  dir_listbox : list str;
  saved_directories : list str
}.

(** [MusicPlaylistManagerApp.__init__] with the part of [setup_ui] that
    fills the listbox, [stored_directories] and [stored_extensions] being
    what the settings hold at the start. *)
Definition App__init__ (w : World) (stored_directories : list str)
    (stored_extensions : gset str) : App :=
  let music_db := MusicDatabase__init__ in
  let music_db := load_directories w stored_directories music_db in
  let music_db := set_extensions stored_extensions music_db in
  {| music_db := music_db;
     dir_listbox := foldl (fun rows directory => rows ++ [directory]) [] (directories music_db);
     saved_directories := stored_directories |}.

(** [MusicPlaylistManagerApp.add_directory], [directory] being what the
    dialog returned (empty when it was cancelled). *)
Definition App_add_directory (w : World) (directory : str) (self : App) : App :=
  if truthy directory then
    let '(added, db) := add_directory w directory (music_db self) in
    if added
    then {| music_db := db;
            dir_listbox := dir_listbox self ++ [directory];
            saved_directories := directories db |}
    else {| music_db := db;
            dir_listbox := dir_listbox self;
            saved_directories := saved_directories self |}
  else self.

(** [MusicPlaylistManagerApp.remove_directory], [selected] being
    [self.dir_listbox.curselection()]. *)
Definition App_remove_directory (selected : list nat) (self : App) : App :=
  match selected with
  | [] => self
  | index :: _ =>
      let directory := default [] (dir_listbox self !! index) in
      let '(removed, db) := remove_directory directory (music_db self) in
      if removed
      then {| music_db := db;
              dir_listbox := delete index (dir_listbox self);
              saved_directories := directories db |}
      else {| music_db := db;
              dir_listbox := dir_listbox self;
              saved_directories := saved_directories self |}
  end.

(** What the user does with the directory list. *)
Inductive App_event : Type :=
  | Add_directory (directory : str)
  | Remove_directory (selected : list nat).

Definition App_handle (w : World) (self : App) (event : App_event) : App :=
  match event with
  | Add_directory directory => App_add_directory w directory self
  | Remove_directory selected => App_remove_directory selected self
  end.

(** ** Copying files to the output directory

    The file system is outside the program: [at_path fs p] is what the path
    [p] holds, [None] when nothing exists there, and [copy2 fs src dst] is
    [shutil.copy2(src, dst)]: whether it returned ([true]) or raised, and
    the file system it leaves. *)
Class Shutil : Type := {
  FS : Type;
  Content : Type;
  at_path : FS -> str -> option Content;
  copy2 : FS -> str -> str -> bool * FS
}.

(** [os.path.exists(p)] *)
Definition path_exists `{Shutil} (fs : FS) (p : str) : bool :=
  match at_path fs p with Some _ => true | None => false end.

(** [f"{name} ({counter}){ext}"] *)
Definition numbered_name (name : str) (counter : Z) (ext : str) : str :=
  name ++ lit " (" ++ lit (pretty counter) ++ lit ")" ++ ext.

(** [while os.path.exists(os.path.join(output_dir, f"{name} ({counter}){ext}")):
    counter += 1], the counter it ends with; [None] when the fuel does not
    suffice. *)
Fixpoint find_counter `{Shutil} (fuel : nat) (fs : FS) (output_dir name ext : str)
    (counter : Z) : option Z :=
  match fuel with
  | O => None
  | S fuel' =>
      if path_exists fs (path_join output_dir (numbered_name name counter ext))
      then find_counter fuel' fs output_dir name ext (counter + 1)
      else Some counter
  end.

(** The destination that [_copy_worker] and [copy_selected_file] choose for
    [file_path]. *)
Definition choose_dest_path `{Shutil} (fuel : nat) (fs : FS) (output_dir file_path : str)
    : option str :=
  let filename := basename file_path in
  let dest_path := path_join output_dir filename in
  if path_exists fs dest_path then
    let '(name, ext) := splitext filename in
    match find_counter fuel fs output_dir name ext 1 with
    | Some counter => Some (path_join output_dir (numbered_name name counter ext))
    | None => None
    end
  else Some dest_path.

(** The [for] loop of [_copy_worker]: a copy that raises is counted in
    [failed] and the loop goes on. *)
Fixpoint copy_loop `{Shutil} (fuel : nat) (files : list str) (output_dir : str)
    (copied failed : Z) (fs : FS) : option (Z * Z * FS) :=
  match files with
  | [] => Some (copied, failed, fs)
  | file_path :: files' =>
      match choose_dest_path fuel fs output_dir file_path with
      | None => None
      | Some dest_path =>
          let '(returned, fs) := copy2 fs file_path dest_path in
          if returned
          then copy_loop fuel files' output_dir (copied + 1) failed fs
          else copy_loop fuel files' output_dir copied (failed + 1) fs
      end
  end.

(** [_copy_worker]: the two counts of its closing message and the file
    system it leaves. *)
Definition _copy_worker `{Shutil} (fuel : nat) (files : list str) (output_dir : str)
    (fs : FS) : option (Z * Z * FS) :=
  copy_loop fuel files output_dir 0 0 fs.

(** What holds of the directory list after every event: the listbox shows
    the directories of the database, which are distinct directories, and the
    settings hold them too unless nothing was added or removed since
    [start]. *)
Definition directory_list_ok (w : World) (start self : App) : Prop :=
  dir_listbox self = directories (music_db self) /\
  NoDup (directories (music_db self)) /\
  Forall (fun d => isdir w d = true) (directories (music_db self)) /\
  (saved_directories self = directories (music_db self) \/
   (saved_directories self = saved_directories start /\
    directories (music_db self) = directories (music_db start))).

(** ** Sample inputs *)

(** A world with no tag library, where every file exists and is empty, and
    the directory [/music] holds [a.mp3] and [b.mp3]. *)
Definition plain_world : World :=
  {| isdir := fun _ => true;
     getsize := fun _ => Some 0;
     mutagen_installed := false;
     mutagen_File := fun _ => FileRaises;
     walk := fun directory =>
       if bool_decide (directory = lit "/music")
       then [(lit "/music", [lit "a.mp3"; lit "b.mp3"])]
       else [] |}.

(** A world whose tag library finds an artist and a title in every file. *)
Definition tagged_world : World :=
  {| isdir := fun _ => true;
     getsize := fun _ => Some 4096;
     mutagen_installed := true;
     mutagen_File := fun _ =>
       FileAudio {| info_length := Some (215 # 1);
                    info_bitrate := Some 320000;
                    has_tags := true;
                    audio_keys :=
                      <[lit "title" := [lit "Tag Title"]]>
                        (<[lit "artist" := [lit "Tag Artist"]]> ∅) |};
     walk := fun _ => [] |}.

(** The file [/music/Artist - Song.mp3] as the plain world builds it. *)
Definition sample_file : MusicFile :=
  set_metadata
    (fst (_extract_metadata plain_world
            (_parse_filename (new_MusicFile (lit "/music/Artist - Song.mp3") 0))))
    (_parse_filename (new_MusicFile (lit "/music/Artist - Song.mp3") 0)).

(** A database that is not scanning, with [/music] to scan and one file
    from an earlier scan. *)
Definition sample_database : MusicDatabase :=
  {| music_files := [sample_file];
     directories := [lit "/music"];
     file_extensions := file_extensions MusicDatabase__init__;
     is_scanning := false |}.

(** A ratio to run the examples with: 1 for equal strings, 0 otherwise.
    No property below depends on the ratio chosen. *)
Definition sample_difflib : Difflib :=
  {| ratio := fun a b => if bool_decide (a = b) then 1%float else 0%float |}.

(** A file system that is a finite map from the paths of the files to their
    contents; [copy2] raises when the source does not exist. *)
Definition map_shutil : Shutil :=
  {| FS := gmap str str;
     Content := str;
     at_path := fun fs p => fs !! p;
     copy2 := fun fs src dst =>
       match fs !! src with
       | Some c => (true, <[dst := c]> fs)
       | None => (false, fs)
       end |}.

(** A world where the directories are the absolute paths. *)
Definition rooted_world : World :=
  {| isdir := fun p => startswith p (lit "/");
     getsize := fun _ => Some 0;
     mutagen_installed := false;
     mutagen_File := fun _ => FileRaises;
     walk := fun _ => [] |}.

(** The main window after a start with three stored directories, one
    addition and two removals. *)
Definition sample_app : App :=
  foldl (App_handle rooted_world)
        (App__init__ rooted_world [lit "/music"; lit "music"; lit "/music"] ∅)
        [Add_directory (lit "/more"); Remove_directory [0%nat]; Remove_directory [5%nat]].

(** An output directory that already holds [a.mp3] and [a (1).mp3]. *)
Definition sample_fs : gmap str str :=
  <[lit "/out/a.mp3" := lit "old"]>
    (<[lit "/out/a (1).mp3" := lit "older"]>
       (<[lit "/music/a.mp3" := lit "new"]> ∅)).

(** * Properties *)

(** ** The filename parser *)

Lemma exchange_both_empty (s : MusicFile) :
  truthy (artist s) = false -> truthy (song s) = false -> exchange s = s.
Proof.
  destruct s as [fp fn ex sz a b tn md]; simpl.
  destruct a, b; simpl; try discriminate; reflexivity.
Qed.

(** A loop that returns leaves both fields filled. *)
Lemma try_artist_first_returned (patterns : list regex) (name : str) :
  forall s s1, try_artist_first patterns name s = (s1, true) ->
               truthy (artist s1) && truthy (song s1) = true.
Proof.
  induction patterns as [|p ps IH]; intros s s1 H; simpl in H.
  - discriminate.
  - destruct (re_match p name) as [m|]; [|eauto].
    simpl in H.
    destruct (truthy (strip (group m 1)) && truthy (strip (group m 2))) eqn:E.
    + inversion H; subst; simpl. exact E.
    + eauto.
Qed.

Lemma try_song_first_returned (patterns : list regex) (name : str) :
  forall s s1, try_song_first patterns name s = (s1, true) ->
               truthy (artist s1) && truthy (song s1) = true.
Proof.
  induction patterns as [|p ps IH]; intros s s1 H; simpl in H.
  - discriminate.
  - destruct (re_match p name) as [m|]; [|eauto].
    simpl in H.
    destruct (truthy (strip (group m 2)) && truthy (strip (group m 1))) eqn:E.
    + inversion H; subst; simpl. exact E.
    + eauto.
Qed.

(** When the artist-first loop does not return, the song-first loop over the
    same patterns does not return either: it leaves the object alone when no
    pattern matches, and otherwise stores the two parts the artist-first loop
    stored last, the other way round. *)
Lemma song_first_after_artist_first (patterns : list regex) (name : str) :
  forall s s1, try_artist_first patterns name s = (s1, false) ->
  forall s',
    (s1 = s /\ try_song_first patterns name s' = (s', false)) \/
    (truthy (artist s1) && truthy (song s1) = false /\
     try_song_first patterns name s'
     = (set_artist (song s1) (set_song (artist s1) s'), false)).
Proof.
  induction patterns as [|p ps IH]; intros s s1 H s'; simpl in *.
  - left. split; congruence.
  - destruct (re_match p name) as [m|]; [|eauto].
    simpl in *.
    rewrite (andb_comm (truthy (strip (group m 2)))).
    destruct (truthy (strip (group m 1)) && truthy (strip (group m 2))) eqn:E.
    + discriminate.
    + right.
      destruct (IH _ _ H (set_artist (strip (group m 2)) (set_song (strip (group m 1)) s')))
        as [[-> ->] | [Hne ->]].
      * simpl. split; [exact E | reflexivity].
      * split; [exact Hne | reflexivity].
Qed.

Lemma whole_name_fallback_filled (name : str) (s : MusicFile) :
  truthy (artist s) || truthy (song s) = true -> whole_name_fallback name s = s.
Proof.
  unfold whole_name_fallback. intros H.
  destruct (truthy (artist s)), (truthy (song s)); simpl in *; congruence.
Qed.

(** Whenever the name left after the track number is not empty, the parser
    fills at least one of artist and song. *)
Lemma parse_filename_fills_a_field (self : MusicFile) :
  detracked_stem self <> [] ->
  truthy (artist (_parse_filename self)) || truthy (song (_parse_filename self)) = true.
Proof.
  unfold detracked_stem, _parse_filename.
  destruct (extract_track (stem self)) as [num name]. cbn [snd]. intros Hname.
  set (s0 := match num with Some n => set_track_num (Some n) self | None => self end).
  destruct (try_artist_first artist_first_patterns name s0) as [s1 r1] eqn:E1.
  destruct r1.
  { apply try_artist_first_returned in E1.
    destruct (truthy (artist s1)); [reflexivity | discriminate]. }
  destruct (try_song_first song_first_patterns name s1) as [s2 r2] eqn:E2.
  destruct r2.
  { apply try_song_first_returned in E2.
    destruct (truthy (artist s2)); [reflexivity | discriminate]. }
  unfold whole_name_fallback.
  destruct (truthy (artist s2)) eqn:Ea; cbn [negb andb].
  { rewrite Ea. reflexivity. }
  destruct (truthy (song s2)) eqn:Eb; cbn [negb andb].
  { rewrite Ea, Eb. reflexivity. }
  destruct name; [congruence|]. cbn [set_song artist song truthy].
  apply orb_true_r.
Qed.

(** The same holds of the finished object: a field that is not empty after
    parsing is kept by [_extract_metadata]. *)
Lemma construction_fills_a_field (w : World) (path : str) (f : MusicFile) :
  MusicFile__init__ w path = Some f ->
  detracked_stem (new_MusicFile path 0) <> [] ->
  truthy (artist f) || truthy (song f) = true.
Proof.
  unfold MusicFile__init__.
  destruct (getsize w path) as [sz|]; [|discriminate].
  intros Hf Hstem.
  assert (Hp : detracked_stem (new_MusicFile path sz) <> []) by exact Hstem.
  apply parse_filename_fills_a_field in Hp.
  set (p := _parse_filename (new_MusicFile path sz)) in *.
  assert (Ha : forall key audio v, fill_from_tag (artist p) key audio = Some v ->
                                   truthy (artist p) = true -> v = artist p).
  { intros key audio v Hv Ht. unfold fill_from_tag in Hv.
    rewrite Ht in Hv. cbn in Hv. congruence. }
  assert (Hs : forall key audio v, fill_from_tag (song p) key audio = Some v ->
                                   truthy (song p) = true -> v = song p).
  { intros key audio v Hv Ht. unfold fill_from_tag in Hv.
    rewrite Ht in Hv. cbn in Hv. congruence. }
  revert Hf. unfold _extract_metadata.
  destruct (bool_decide (extension p ∈ tagged_extensions) && mutagen_installed w);
    [|intros [= <-]; exact Hp].
  destruct (mutagen_File w (full_path p)) as [| |audio]; try (intros [= <-]; exact Hp).
  destruct (has_tags audio); [|intros [= <-]; exact Hp].
  destruct (fill_from_tag (artist p) (lit "artist") audio) as [a|] eqn:Ea;
    [|intros [= <-]; exact Hp].
  cbn [set_artist song].
  destruct (fill_from_tag (song p) (lit "title") audio) as [t|] eqn:Et;
    intros [= <-]; cbn [set_metadata set_song set_artist artist song].
  - destruct (truthy (artist p)) eqn:Ta.
    + rewrite (Ha _ _ _ Ea eq_refl), Ta. reflexivity.
    + cbn [orb] in Hp. rewrite (Hs _ _ _ Et Hp), Hp. apply orb_true_r.
  - destruct (truthy (artist p)) eqn:Ta.
    + rewrite (Ha _ _ _ Ea eq_refl), Ta. reflexivity.
    + cbn [orb] in Hp. rewrite Hp. apply orb_true_r.
Qed.

(** C1. The three parser examples of the specification, run on the code.
    The first and the third come out as stated: ["01 - Artist - Song.mp3"]
    gives track 1, artist ["Artist"], song ["Song"], and ["JustATitle.wav"]
    gives an empty artist, song ["JustATitle"] and no track number. The
    second does not: on ["Artist_-_Song.flac"] the hyphen pattern, tried
    first, already matches with no whitespace around the hyphen, so the result
    is artist ["Artist_"] and song ["_Song"], although the pattern written for
    this shape, [_-_], would split it into ["Artist"] and ["Song"]. *)
Theorem parser_examples (sz : Z) :
  parsed (lit "01 - Artist - Song.mp3") sz = (lit "Artist", lit "Song", Some 1) /\
  parsed (lit "JustATitle.wav") sz = ([], lit "JustATitle", None) /\
  parsed (lit "Artist_-_Song.flac") sz = (lit "Artist_", lit "_Song", None) /\
  (exists m, re_match underscore_hyphen_pattern (lit "Artist_-_Song") = Some m /\
             strip (group m 1) = lit "Artist" /\ strip (group m 2) = lit "Song").
Proof.
  repeat split; try (vm_compute; reflexivity).
  eexists. split; [vm_compute; reflexivity|].
  split; vm_compute; reflexivity.
Qed.

(** C2. A name that is a track number and nothing else: the stem of
    ["01.mp3"] is ["01"], not empty, and yet the object has an empty artist
    and an empty song, after parsing and also after construction when no
    tags are read. The fallback stores the name left after the track
    number was removed, which is empty here. *)
Theorem track_number_only_name_leaves_both_empty (sz : Z) :
  stem (new_MusicFile (lit "01.mp3") sz) = lit "01" /\
  parsed (lit "01.mp3") sz = ([], [], Some 1) /\
  (exists f, MusicFile__init__ plain_world (lit "/music/01.mp3") = Some f /\
             artist f = [] /\ song f = [] /\ track_num f = Some 1).
Proof.
  repeat split; try (vm_compute; reflexivity).
  eexists. split; [vm_compute; reflexivity|].
  repeat split.
Qed.

(** C3, as stated, fails: on ["-Song.mp3"] the parser with the song-first
    pass gives artist ["Song"] and an empty song, the parser without it an
    empty artist and song ["Song"]. *)
Lemma song_first_pass_changes_outcome :
  ~ (forall path sz,
       let full := _parse_filename (new_MusicFile path sz) in
       let only := parse_artist_first_only (new_MusicFile path sz) in
       (artist full, song full, track_num full)
       = (artist only, song only, track_num only)).
Proof.
  intros H. specialize (H (lit "-Song.mp3") 0).
  vm_compute in H. discriminate.
Qed.

(** C3, amended. The song-first pass never changes the track number. It
    leaves artist and song as the artist-first patterns and the fallback
    give them, except when the artist-first loop ends without returning and
    with exactly one of the two fields empty: then artist and song change
    places. *)
Theorem song_first_pass_effect (path : str) (sz : Z) :
  let self := new_MusicFile path sz in
  track_num (_parse_filename self) = track_num (parse_artist_first_only self) /\
  _parse_filename self
  = (if one_sided_split self
     then exchange (parse_artist_first_only self)
     else parse_artist_first_only self).
Proof.
  intros self.
  assert (Heq : _parse_filename self
                = (if one_sided_split self
                   then exchange (parse_artist_first_only self)
                   else parse_artist_first_only self)).
  { unfold _parse_filename, parse_artist_first_only, one_sided_split, artist_first_pass.
    destruct (extract_track (stem self)) as [num name].
    set (s0 := match num with Some n => set_track_num (Some n) self | None => self end).
    assert (Hs0 : truthy (artist s0) = false /\ truthy (song s0) = false)
      by (subst s0; destruct num; split; reflexivity).
    destruct (try_artist_first artist_first_patterns name s0) as [s1 r1] eqn:E1.
    destruct r1; [reflexivity|]. cbn [negb andb].
    change song_first_patterns with artist_first_patterns.
    destruct (song_first_after_artist_first _ _ _ _ E1 s1) as [[-> E2] | [Hne E2]];
      rewrite E2.
    - destruct Hs0 as [-> ->]. reflexivity.
    - fold (exchange s1).
      destruct (truthy (artist s1)) eqn:Ea, (truthy (song s1)) eqn:Eb;
        cbn [andb xorb] in Hne |- *; try discriminate.
      + rewrite !whole_name_fallback_filled; try reflexivity.
        * rewrite Ea; reflexivity.
        * cbn [exchange set_artist set_song artist song]. rewrite Ea. apply orb_true_r.
      + rewrite !whole_name_fallback_filled; try reflexivity.
        * rewrite Eb. apply orb_true_r.
        * cbn [exchange set_artist set_song artist song]. rewrite Eb. reflexivity.
      + rewrite exchange_both_empty by assumption. reflexivity. }
  split; [|exact Heq].
  rewrite Heq. destruct (one_sided_split self); reflexivity.
Qed.

(** ** Metadata *)

(** A value that differs from the current one was read from the tags, and
    the current one was empty. *)
Lemma fill_from_tag_source (current key : str) (audio : Audio) (v : str) :
  fill_from_tag current key audio = Some v ->
  v = current \/
  (current = [] /\ exists rest, audio_keys audio !! key = Some (v :: rest)).
Proof.
  unfold fill_from_tag. destruct current; simpl.
  - destruct (audio_keys audio !! key) as [[|x rest]|]; intros [= <-]; eauto.
  - intros [= <-]. left; reflexivity.
Qed.

(** [_extract_metadata] changes nothing of the object but artist and song,
    and each of the two either stays or, having been empty, is read from
    the tags of the file. *)
Lemma extract_metadata_fields (w : World) (self : MusicFile) :
  let self' := snd (_extract_metadata w self) in
  track_num self' = track_num self /\
  (artist self' = artist self \/
   (artist self = [] /\
    exists audio rest, mutagen_File w (full_path self) = FileAudio audio /\
                       audio_keys audio !! lit "artist" = Some (artist self' :: rest))) /\
  (song self' = song self \/
   (song self = [] /\
    exists audio rest, mutagen_File w (full_path self) = FileAudio audio /\
                       audio_keys audio !! lit "title" = Some (song self' :: rest))).
Proof.
  unfold _extract_metadata.
  destruct (bool_decide (extension self ∈ tagged_extensions) && mutagen_installed w);
    [|cbn; auto].
  destruct (mutagen_File w (full_path self)) as [| |audio] eqn:Ef; [cbn; auto..|].
  destruct (has_tags audio); [|cbn; auto].
  destruct (fill_from_tag (artist self) (lit "artist") audio) as [a|] eqn:Ea; [|cbn; auto].
  apply fill_from_tag_source in Ea.
  cbn [set_artist song].
  destruct (fill_from_tag (song self) (lit "title") audio) as [t|] eqn:Et.
  - apply fill_from_tag_source in Et. cbn.
    split; [reflexivity|]. split.
    + destruct Ea as [->|[Ha [rest Hr]]]; [left; reflexivity|right; eauto].
    + destruct Et as [->|[Ht [rest Hr]]]; [left; reflexivity|right; eauto].
  - cbn. split; [reflexivity|]. split; [|left; reflexivity].
    destruct Ea as [->|[Ha [rest Hr]]]; [left; reflexivity|right; eauto].
Qed.

(** C9. Construction keeps what the parser found: a non-empty artist (song)
    of the parser is the artist (song) of the finished object whatever the
    tags say, and a field that differs from the parser's was empty after
    parsing and holds the first value of the file's [artist] ([title])
    tag. *)
Theorem enrichment_keeps_parsed_fields (w : World) (path : str) (sz : Z) :
  getsize w path = Some sz ->
  exists f, MusicFile__init__ w path = Some f /\
    let p := _parse_filename (new_MusicFile path sz) in
    (artist p <> [] -> artist f = artist p) /\
    (song p <> [] -> song f = song p) /\
    (artist f <> artist p ->
     artist p = [] /\
     exists audio rest, mutagen_File w path = FileAudio audio /\
                        audio_keys audio !! lit "artist" = Some (artist f :: rest)) /\
    (song f <> song p ->
     song p = [] /\
     exists audio rest, mutagen_File w path = FileAudio audio /\
                        audio_keys audio !! lit "title" = Some (song f :: rest)).
Proof.
  intros Hsz. unfold MusicFile__init__. rewrite Hsz.
  set (p := _parse_filename (new_MusicFile path sz)).
  assert (Hpath : full_path p = path).
  { subst p. unfold _parse_filename.
    destruct (extract_track _) as [num name].
    set (s0 := match num with Some n => set_track_num (Some n) _ | None => _ end).
    assert (Hs0 : full_path s0 = path) by (subst s0; destruct num; reflexivity).
    clearbody s0.
    assert (Ha : forall ps s s1 r, try_artist_first ps name s = (s1, r) ->
                                   full_path s1 = full_path s).
    { induction ps as [|q ps IH]; intros s s1 r E; simpl in E; [congruence|].
      destruct (re_match q name); [|eauto].
      cbn [set_artist set_song artist song] in E.
      destruct (_ && _); [inversion E; reflexivity|].
      apply IH in E. exact E. }
    assert (Hb : forall ps s s1 r, try_song_first ps name s = (s1, r) ->
                                   full_path s1 = full_path s).
    { induction ps as [|q ps IH]; intros s s1 r E; simpl in E; [congruence|].
      destruct (re_match q name); [|eauto].
      cbn [set_artist set_song artist song] in E.
      destruct (_ && _); [inversion E; reflexivity|].
      apply IH in E. exact E. }
    destruct (try_artist_first _ name s0) as [s1 r1] eqn:E1.
    apply Ha in E1. destruct r1; [congruence|].
    destruct (try_song_first _ name s1) as [s2 r2] eqn:E2.
    apply Hb in E2. destruct r2; [congruence|].
    unfold whole_name_fallback. destruct (_ && _); cbn; congruence. }
  pose proof (extract_metadata_fields w p) as (_ & Hart & Hsong).
  destruct (_extract_metadata w p) as [md f'] eqn:Em. cbn [snd] in Hart, Hsong.
  rewrite Hpath in Hart, Hsong.
  exists (set_metadata md f'). split; [reflexivity|].
  cbn [set_metadata artist song].
  repeat split.
  - intros Hne. destruct Hart as [?|[? _]]; congruence.
  - intros Hne. destruct Hsong as [?|[? _]]; congruence.
  - destruct Hart as [?|[? _]]; congruence.
  - destruct Hart as [?|[_ ?]]; [congruence | assumption].
  - destruct Hsong as [?|[? _]]; congruence.
  - destruct Hsong as [?|[_ ?]]; [congruence | assumption].
Qed.

Lemma enrichment_keeps_parsed_fields_witness :
  getsize tagged_world (lit "/music/Artist - Song.mp3") = Some 4096 /\
  exists f, MusicFile__init__ tagged_world (lit "/music/Artist - Song.mp3") = Some f /\
            artist f = lit "Artist" /\ song f = lit "Song".
Proof.
  split; [reflexivity|].
  destruct (enrichment_keeps_parsed_fields tagged_world
              (lit "/music/Artist - Song.mp3") 4096 eq_refl)
    as (f & Hf & Ha & Hs & _).
  exists f. split; [exact Hf|].
  split; [apply Ha | apply Hs]; vm_compute; discriminate.
Defined.

(** ** The similarity score *)

Lemma chr_eqb_eq (a b : ascii) : chr_eqb a b = true <-> a = b.
Proof. apply Ascii.eqb_eq. Qed.

Lemma startswith_spec (s prefix : str) :
  startswith s prefix = true <-> exists after, s = prefix ++ after.
Proof.
  revert s. induction prefix as [|a p IH]; intros s; simpl.
  - split; [eauto | intros _; destruct s; reflexivity].
  - destruct s as [|b s].
    + split; [discriminate | intros [? [=]]].
    + simpl. rewrite andb_true_iff, chr_eqb_eq, IH. split.
      * intros [-> [after ->]]. eauto.
      * intros [after [= -> ->]]. eauto.
Qed.

(** [contains] decides [substring]. *)
Lemma contains_spec (text part : str) :
  contains text part = true <-> substring part text.
Proof.
  unfold substring. split.
  - induction text as [|c text IH]; cbn [contains];
      rewrite orb_true_iff, startswith_spec.
    + intros [[after ->]|[=]]. exists [], after. reflexivity.
    + intros [[after ->]|H].
      * exists [], after. reflexivity.
      * destruct (IH H) as (before & after & ->).
        exists (c :: before), after. reflexivity.
  - intros (before & after & ->).
    induction before as [|c before IH].
    + cbn [app]. destruct (part ++ after) eqn:E; cbn [contains];
        rewrite orb_true_iff; left; apply startswith_spec; exists after; symmetry; exact E.
    + cbn [app contains]. rewrite IH. apply orb_true_r.
Qed.

Lemma parts_all_present (text : str) (parts : gset str) :
  forallb (fun part => contains text part) (elements parts) = true <->
  forall part, part ∈ parts -> substring part text.
Proof.
  rewrite forallb_forall. split.
  - intros H part Hin. apply contains_spec, H.
    apply list_elem_of_In, elem_of_elements, Hin.
  - intros H part Hin. apply contains_spec, H.
    apply elem_of_elements, list_elem_of_In, Hin.
Qed.

(** C5, as stated, fails: with the tokens of the specification, which
    turn an underscore into a space, the query [_] has no token, so the
    claim gives the file [a_b.mp3] the score 0.0 at threshold 0.5; the
    program keeps the underscore as a word, finds it in the text, and
    returns 1.0. *)
Lemma underscore_is_a_query_word :
  ~ (forall (D : Difflib) (query : str) (threshold : float) (self : MusicFile),
       let query_parts := alphanumeric_word_set query in
       let rejected :=
         query_parts = ∅ \/
         exists part, part ∈ query_parts /\ ~ substring part (match_text self) in
       (rejected -> score query threshold self = 0%float) /\
       (~ rejected -> (threshold <=? 0.5)%float = true ->
        score query threshold self = 1%float)).
Proof.
  intros H.
  destruct (H sample_difflib (lit "_") 0.5%float
              (_parse_filename (new_MusicFile (lit "/music/a_b.mp3") 0))) as [Hzero _].
  assert (Hscore : @score sample_difflib (lit "_") 0.5%float
                     (_parse_filename (new_MusicFile (lit "/music/a_b.mp3") 0))
                   = 0%float).
  { apply Hzero. left. vm_compute. reflexivity. }
  apply (f_equal (fun x => PrimFloat.eqb x 0%float)) in Hscore.
  vm_compute in Hscore. discriminate.
Qed.

(** C5, amended. The gate and the fast path of the score, the words of a
    query being those of the program: the query in lower case, every
    character that is neither a word character (alphanumeric or the
    underscore) nor whitespace turned into a space, split at whitespace.
    When these words are none, or one of them does not occur in the
    lower-cased text made of file name, artist and song, the score is 0.0
    whatever the threshold; otherwise, with a threshold of at most 0.5, the
    score is 1.0. *)
Theorem match_query_gate_and_fast_path `{Difflib}
    (query : str) (threshold : float) (self : MusicFile) :
  let query_parts := word_set (lower query) in
  let rejected :=
    query_parts = ∅ \/
    exists part, part ∈ query_parts /\ ~ substring part (match_text self) in
  (rejected -> score query threshold self = 0%float) /\
  (~ rejected -> (threshold <=? 0.5)%float = true ->
   score query threshold self = 1%float).
Proof.
  intros query_parts rejected. unfold score, match_query.
  fold query_parts.
  destruct (forallb (fun part => contains (match_text self) part) (elements query_parts))
    eqn:Eall.
  - destruct (decide (query_parts = ∅)) as [Hempty|Hne].
    + rewrite bool_decide_eq_false_2 by (intros Hc; exact (Hc Hempty)).
      cbn [negb orb fst]. split; [reflexivity|].
      intros Hn. exfalso. apply Hn. left. exact Hempty.
    + rewrite bool_decide_eq_true_2 by exact Hne.
      cbn [negb orb]. split.
      * intros [Hempty|(part & Hin & Hno)]; [contradiction|].
        exfalso. apply Hno.
        exact (proj1 (parts_all_present _ _) Eall part Hin).
      * intros _ ->. reflexivity.
  - rewrite orb_true_r. cbn [fst]. split; [reflexivity|].
    intros Hn. exfalso.
    assert (Hall : forallb (fun part => contains (match_text self) part)
                     (elements query_parts) = true); [|congruence].
    apply parts_all_present. intros part Hin.
    apply contains_spec.
    destruct (contains (match_text self) part) eqn:Ec; [reflexivity|].
    exfalso. apply Hn. right. exists part. split; [exact Hin|].
    rewrite <- contains_spec. congruence.
Qed.

Lemma match_query_gate_and_fast_path_witness :
  @score sample_difflib (lit "?!") 0.75%float sample_file = 0%float /\
  @score sample_difflib (lit "SONG, artist") 0.5%float sample_file = 1%float.
Proof.
  split.
  - apply (@match_query_gate_and_fast_path sample_difflib (lit "?!") 0.75%float sample_file).
    left. vm_compute. reflexivity.
  - apply (@match_query_gate_and_fast_path sample_difflib
             (lit "SONG, artist") 0.5%float sample_file).
    + intros [Hempty | (part & Hin & Hno)].
      * apply (f_equal elements) in Hempty. vm_compute in Hempty. discriminate.
      * apply Hno. apply contains_spec.
        apply elem_of_elements in Hin.
        vm_compute in Hin.
        repeat (apply elem_of_cons in Hin; destruct Hin as [->|Hin];
          [vm_compute; reflexivity|]).
        apply elem_of_nil in Hin. destruct Hin.
    + vm_compute. reflexivity.
Defined.

(** ** The order of floats

    [<], [<=] and [==] of binary64 floats, through their specification on
    [spec_float]: away from NaN they form a total preorder. *)

Ltac sf_cases :=
  unfold SFleb, SFltb, SFeqb, SFcompare;
  repeat match goal with
         | f : spec_float |- _ => destruct f
         | b : bool |- _ => destruct b
         end;
  simpl; try congruence;
  repeat match goal with
         | |- context [Z.compare ?a ?b] => destruct (Z.compare_spec a b)
         | |- context [Pos.compare_cont Eq ?a ?b] =>
             change (Pos.compare_cont Eq a b) with (Pos.compare a b);
             destruct (Pos.compare_spec a b)
         end;
  simpl; try congruence; try lia.

Lemma SFleb_trans (a b c : spec_float) :
  SFleb a b = true -> SFleb b c = true -> SFleb a c = true.
Proof. sf_cases. Qed.

Lemma SFltb_SFleb (a b : spec_float) : SFltb a b = true -> SFleb a b = true.
Proof. sf_cases. Qed.

Lemma SFleb_total (t a b : spec_float) :
  SFleb t a = true -> SFleb t b = true -> SFltb b a = false -> SFleb a b = true.
Proof. sf_cases. Qed.

Lemma SFltb_not_SFeqb (a b v : spec_float) :
  SFltb a b = true -> SFeqb b v = true -> SFeqb a v = false.
Proof. sf_cases. Qed.

Lemma float_leb_trans (x y z : float) :
  (x <=? y)%float = true -> (y <=? z)%float = true -> (x <=? z)%float = true.
Proof. rewrite !FloatAxioms.leb_spec. apply SFleb_trans. Qed.

Lemma float_ltb_leb (x y : float) :
  (x <? y)%float = true -> (x <=? y)%float = true.
Proof. rewrite FloatAxioms.ltb_spec, FloatAxioms.leb_spec. apply SFltb_SFleb. Qed.

(** Two floats above a common bound are comparable. *)
Lemma float_leb_total (t x y : float) :
  (t <=? x)%float = true -> (t <=? y)%float = true ->
  (y <? x)%float = false -> (x <=? y)%float = true.
Proof. rewrite FloatAxioms.ltb_spec, !FloatAxioms.leb_spec. apply SFleb_total. Qed.

Lemma float_ltb_not_eqb (x y v : float) :
  (x <? y)%float = true -> (y =? v)%float = true -> (x =? v)%float = false.
Proof. rewrite FloatAxioms.ltb_spec, !FloatAxioms.eqb_spec. apply SFltb_not_SFeqb. Qed.

(** ** [sorted] sorts, and is stable *)

Section SortedFacts.
Context {A : Type}.
Variable key : A -> float.

Local Abbreviation ascending := (fun a b : A => (key a <=? key b)%float = true).
Local Abbreviation descending_by_key := (fun a b : A => (key b <=? key a)%float = true).
Local Abbreviation has_key v := (fun a : A => (key a =? v)%float = true).

Lemma insert_stable_Permutation (x : A) (l : list A) :
  insert_stable key x l ≡ₚ x :: l.
Proof.
  induction l as [|y l IH]; simpl; [reflexivity|].
  destruct (key y <? key x)%float; [|reflexivity].
  rewrite IH. apply Permutation_swap.
Qed.

Lemma stable_sort_Permutation (l : list A) : stable_sort key l ≡ₚ l.
Proof.
  induction l as [|x l IH]; simpl; [reflexivity|].
  rewrite insert_stable_Permutation, IH. reflexivity.
Qed.

Lemma sorted_Permutation (rev_flag : bool) (l : list A) : sorted key rev_flag l ≡ₚ l.
Proof.
  unfold sorted. destruct rev_flag.
  - rewrite reverse_Permutation, stable_sort_Permutation. apply reverse_Permutation.
  - apply stable_sort_Permutation.
Qed.

(** Inserting does not change the order among the elements of one key:
    the new element only passes elements of a smaller key. *)
Lemma insert_stable_filter (v : float) (x : A) (l : list A) :
  filter (has_key v) (insert_stable key x l) = filter (has_key v) (x :: l).
Proof.
  induction l as [|y l IH]; simpl; [reflexivity|].
  destruct (key y <? key x)%float eqn:E; [|reflexivity].
  rewrite (filter_cons _ y), IH, !(filter_cons _ x), (filter_cons _ y).
  destruct (decide (has_key v x)) as [Hx|Hx]; [|reflexivity].
  destruct (decide (has_key v y)) as [Hy|Hy]; [|reflexivity].
  exfalso. cbv beta in Hx, Hy.
  rewrite (float_ltb_not_eqb _ _ _ E Hx) in Hy. discriminate.
Qed.

Lemma stable_sort_filter (v : float) (l : list A) :
  filter (has_key v) (stable_sort key l) = filter (has_key v) l.
Proof.
  induction l as [|x l IH]; simpl; [reflexivity|].
  rewrite insert_stable_filter, !(filter_cons _ x), IH. reflexivity.
Qed.

Lemma sorted_filter (rev_flag : bool) (v : float) (l : list A) :
  filter (has_key v) (sorted key rev_flag l) = filter (has_key v) l.
Proof.
  unfold sorted. destruct rev_flag.
  - rewrite filter_reverse, stable_sort_filter, filter_reverse.
    apply reverse_involutive.
  - apply stable_sort_filter.
Qed.

Lemma insert_stable_ascending (t : float) (x : A) (l : list A) :
  (t <=? key x)%float = true ->
  Forall (fun a => (t <=? key a)%float = true) l ->
  StronglySorted ascending l ->
  StronglySorted ascending (insert_stable key x l).
Proof.
  intros Hx Hl Hs. induction Hs as [|y l Hs IH Hy]; simpl.
  - repeat constructor.
  - apply Forall_cons in Hl as [Hty Hl].
    destruct (key y <? key x)%float eqn:E.
    + constructor; [apply IH, Hl|].
      rewrite insert_stable_Permutation. constructor; [|exact Hy].
      apply float_ltb_leb, E.
    + pose proof (float_leb_total t _ _ Hx Hty E) as Hxy.
      constructor; [constructor; assumption|].
      constructor; [exact Hxy|].
      eapply Forall_impl; [exact Hy|].
      intros z Hz. eapply float_leb_trans; [exact Hxy | exact Hz].
Qed.

Lemma stable_sort_ascending (t : float) (l : list A) :
  Forall (fun a => (t <=? key a)%float = true) l ->
  StronglySorted ascending (stable_sort key l).
Proof.
  induction l as [|x l IH]; simpl; intros Hl; [constructor|].
  apply Forall_cons in Hl as [Hx Hl].
  apply (insert_stable_ascending t); [exact Hx | | apply IH, Hl].
  rewrite stable_sort_Permutation. exact Hl.
Qed.

Lemma StronglySorted_reversed (R : A -> A -> Prop) (l : list A) :
  StronglySorted R l -> StronglySorted (fun a b => R b a) (reverse l).
Proof.
  induction 1 as [|x l Hs IH Hx]; [constructor|].
  rewrite reverse_cons. apply StronglySorted_app. split_and!.
  - intros a b Ha Hb. apply list_elem_of_singleton in Hb as ->.
    rewrite elem_of_reverse in Ha.
    rewrite Forall_forall in Hx. apply Hx, Ha.
  - exact IH.
  - repeat constructor.
Qed.

(** With [reverse=True] the keys come out in descending order, provided
    no key is a NaN (here: all keys are above some bound [t]). *)
Lemma sorted_reverse_descending (t : float) (l : list A) :
  Forall (fun a => (t <=? key a)%float = true) l ->
  StronglySorted descending_by_key (sorted key true l).
Proof.
  intros Hl. unfold sorted.
  apply (StronglySorted_reversed ascending).
  apply (stable_sort_ascending t), Forall_reverse, Hl.
Qed.
End SortedFacts.

(** ** [search] and [match_playlist] *)

(** [match_query] assigns nothing. *)
Lemma match_query_self `{Difflib} (query : str) (threshold : float) (f : MusicFile) :
  snd (match_query query threshold f) = f.
Proof.
  unfold match_query.
  destruct (_ || _); [reflexivity|].
  destruct (threshold <=? 0.5)%float; reflexivity.
Qed.

Lemma set_music_files_same (self : MusicDatabase) :
  set_music_files (music_files self) self = self.
Proof. destruct self; reflexivity. Qed.

(** The loop over the files keeps, in order, the files whose score reaches
    the threshold, and leaves the files as they were. *)
Lemma match_loop_spec `{Difflib} (query : str) (threshold : float) (files : list MusicFile) :
  match_loop query threshold files
  = (filter (fun p => (threshold <=? snd p)%float = true)
            (map (fun f => (f, score query threshold f)) files),
     files).
Proof.
  induction files as [|f files IH]; [reflexivity|].
  cbn [match_loop map].
  pose proof (match_query_self query threshold f) as Hself.
  unfold score at 1.
  destruct (match_query query threshold f) as [sc f'].
  cbn [fst snd] in *. subst f'. rewrite IH.
  rewrite filter_cons. cbn [snd].
  destruct (threshold <=? sc)%float eqn:E.
  - rewrite decide_True by reflexivity. reflexivity.
  - rewrite decide_False by discriminate. reflexivity.
Qed.

Lemma search_spec `{Difflib} (query : str) (threshold : float) (self : MusicDatabase) :
  search query threshold self
  = (if truthy (strip query) then filter_and_sort query threshold self else [], self).
Proof.
  unfold search, filter_and_sort, scored.
  destruct (truthy (strip query)); [|reflexivity].
  cbn [negb]. rewrite match_loop_spec, set_music_files_same. reflexivity.
Qed.

Lemma match_playlist_spec `{Difflib} (entries : list str) (threshold : float)
    (self : MusicDatabase) :
  match_playlist entries threshold self
  = (map (fun entry => (entry, filter_and_sort entry threshold self)) entries, self).
Proof.
  induction entries as [|entry entries IH]; [reflexivity|].
  cbn [match_playlist map].
  rewrite match_loop_spec, set_music_files_same, IH. reflexivity.
Qed.

Lemma scored_above_threshold `{Difflib} (query : str) (threshold : float)
    (self : MusicDatabase) :
  Forall (fun p => (threshold <=? snd p)%float = true) (scored query threshold self).
Proof.
  apply Forall_forall. intros p Hp.
  apply list_elem_of_filter in Hp as [Hp _]. exact Hp.
Qed.

(** C6. [search] on a query that is blank once trimmed returns the empty
    list. Otherwise it returns exactly the files whose score reaches the
    threshold, each with its score (the same entries, as many times), in
    descending order of score, and the entries of equal score stand in the
    order of [music_files]. *)
Theorem search_filters_and_sorts `{Difflib}
    (query : str) (threshold : float) (self : MusicDatabase) :
  let results := fst (search query threshold self) in
  (strip query = [] -> results = []) /\
  (strip query <> [] ->
   (forall f s, (f, s) ∈ results <->
                f ∈ music_files self /\ s = score query threshold f /\
                (threshold <=? s)%float = true) /\
   results ≡ₚ scored query threshold self /\
   descending results /\
   (forall v, with_score v results = with_score v (scored query threshold self))).
Proof.
  intros results. subst results. rewrite search_spec. cbn [fst].
  split.
  - intros ->. reflexivity.
  - intros Hq. destruct (strip query) as [|c q'] eqn:E; [congruence|].
    cbn [truthy]. unfold filter_and_sort.
    assert (Hperm := sorted_Permutation (A:=MusicFile * float) snd true
                       (scored query threshold self)).
    split_and!.
    + intros f s. rewrite Hperm. unfold scored.
      rewrite list_elem_of_filter, list_elem_of_In, in_map_iff. cbn [snd]. split.
      * intros [Hs (f' & [= -> <-] & Hin)].
        split_and!; [apply list_elem_of_In, Hin | reflexivity | exact Hs].
      * intros (Hin & -> & Hs). split; [exact Hs|].
        exists f. split; [reflexivity | apply list_elem_of_In, Hin].
    + exact Hperm.
    + apply (sorted_reverse_descending snd threshold), scored_above_threshold.
    + intros v. apply (sorted_filter snd).
Qed.

Lemma search_filters_and_sorts_witness :
  fst (@search sample_difflib (lit "  ") 0.5%float sample_database) = [] /\
  descending (fst (@search sample_difflib (lit "song") 0.5%float sample_database)).
Proof.
  split.
  - apply (@search_filters_and_sorts sample_difflib (lit "  ") 0.5%float).
    vm_compute. reflexivity.
  - apply (@search_filters_and_sorts sample_difflib (lit "song") 0.5%float).
    vm_compute. discriminate.
Defined.

Lemma float_above_zero_not_below (t : float) :
  (0 <? t)%float = true -> (t <=? 0)%float = false.
Proof.
  rewrite FloatAxioms.ltb_spec, FloatAxioms.leb_spec.
  change (Prim2SF 0) with (S754_zero false).
  generalize (Prim2SF t). intros f. sf_cases.
Qed.

Lemma lower_char_space (c : ascii) : isspace c = true -> lower_char c = c.
Proof.
  destruct c as [[] [] [] [] [] [] [] []]; vm_compute; congruence.
Qed.

Lemma space_is_not_punctuation (c : ascii) :
  isspace c = true -> negb (isword c || isspace c) = false.
Proof. intros ->. rewrite orb_true_r. reflexivity. Qed.

Lemma lstrip_nil_spaces (s : str) : lstrip s = [] -> Forall (fun c => isspace c = true) s.
Proof.
  induction s as [|c s IH]; simpl; [constructor|].
  destruct (isspace c) eqn:E; [|discriminate].
  intros Hs. constructor; auto.
Qed.

Lemma strip_nil_spaces (s : str) : strip s = [] -> Forall (fun c => isspace c = true) s.
Proof.
  unfold strip, rstrip. intros Hs.
  apply (f_equal (@rev ascii)) in Hs. rewrite rev_involutive in Hs. cbn [rev] in Hs.
  apply lstrip_nil_spaces in Hs.
  assert (Hl : Forall (fun c => isspace c = true) (lstrip s)).
  { apply Forall_forall. intros c Hc. rewrite Forall_forall in Hs. apply Hs.
    apply list_elem_of_In. apply -> in_rev. apply list_elem_of_In, Hc. }
  clear Hs. induction s as [|c s IH]; [constructor|].
  simpl in Hl. destruct (isspace c) eqn:E.
  - constructor; auto.
  - exact Hl.
Qed.

(** A query of whitespace only has no words. *)
Lemma blank_query_no_words (query : str) :
  strip query = [] -> word_set (lower query) = ∅.
Proof.
  intros Hs. apply strip_nil_spaces in Hs.
  unfold word_set, re_sub.
  assert (Hsplit : forall pos s, Forall (fun c => isspace c = true) s ->
            split (sub_from punctuation_pattern (lit " ") pos 0 (lower s)) = []).
  { intros pos s Hall. revert pos. induction Hall as [|c s Hc Hall IH]; intros pos.
    - reflexivity.
    - cbn [lower map sub_from]. rewrite (lower_char_space c Hc).
      cbn [run punctuation_pattern]. rewrite (space_is_not_punctuation c Hc).
      unfold split. cbn [split_from]. rewrite Hc. cbn [truthy].
      apply (IH (S pos)). }
  rewrite (Hsplit 0%nat query Hs). reflexivity.
Qed.

Lemma blank_query_scores_zero `{Difflib} (query : str) (threshold : float) (f : MusicFile) :
  strip query = [] -> score query threshold f = 0%float.
Proof.
  intros Hs. unfold score, match_query.
  rewrite (blank_query_no_words query Hs).
  rewrite bool_decide_eq_false_2 by (intros Hc; apply Hc; reflexivity).
  reflexivity.
Qed.

(** With a positive threshold, the filter and sort find nothing for a
    blank query, as [search] does. *)
Lemma filter_and_sort_blank `{Difflib} (query : str) (threshold : float)
    (self : MusicDatabase) :
  strip query = [] -> (0 <? threshold)%float = true ->
  filter_and_sort query threshold self = [].
Proof.
  intros Hs Ht. unfold filter_and_sort, scored.
  assert (Hnone : filter (fun p => (threshold <=? snd p)%float = true)
                    (map (fun f => (f, score query threshold f)) (music_files self)) = []).
  { induction (music_files self) as [|f files IH]; [reflexivity|].
    cbn [map]. rewrite filter_cons_False; [exact IH|].
    cbn [snd]. rewrite (blank_query_scores_zero query threshold f Hs).
    rewrite (float_above_zero_not_below threshold Ht). discriminate. }
  rewrite Hnone. reflexivity.
Qed.

(** C7. [match_playlist] returns one pair per entry, in the order of the
    entries, so as many as there are entries; the list next to an entry,
    possibly empty, is the filter and sort of [search] run on that entry:
    the files whose score for the entry reaches the threshold, sorted as
    [search] sorts. It is the result of [search] itself for every entry
    that is not blank, and for every entry when the threshold is
    positive. *)
Theorem match_playlist_shape `{Difflib}
    (entries : list str) (threshold : float) (self : MusicDatabase) :
  let results := fst (match_playlist entries threshold self) in
  length results = length entries /\
  map fst results = entries /\
  map snd results = map (fun entry => filter_and_sort entry threshold self) entries /\
  (forall i entry matches,
     results !! i = Some (entry, matches) ->
     entries !! i = Some entry /\
     (strip entry <> [] \/ (0 <? threshold)%float = true ->
      matches = fst (search entry threshold self))).
Proof.
  intros results. subst results. rewrite match_playlist_spec. cbn [fst].
  split_and!.
  - apply length_map.
  - rewrite map_map. cbn [fst]. apply map_id.
  - rewrite map_map. reflexivity.
  - intros i entry matches Hi.
    change (map ?f entries) with (f <$> entries) in Hi.
    rewrite list_lookup_fmap in Hi.
    destruct (entries !! i) as [e|]; [|discriminate].
    cbn in Hi. injection Hi as <- <-.
    split; [reflexivity|].
    rewrite search_spec. cbn [fst].
    destruct (strip e) as [|c q] eqn:E; [|reflexivity].
    intros [Hne | Ht]; [congruence|].
    cbn [truthy]. apply filter_and_sort_blank; assumption.
Qed.

Lemma match_playlist_shape_witness :
  map fst (fst (@match_playlist sample_difflib [lit "song"; lit "no such title"]
                  0.5%float sample_database))
  = [lit "song"; lit "no such title"] /\
  map (fun p => length (snd p))
      (fst (@match_playlist sample_difflib [lit "song"; lit "no such title"]
              0.5%float sample_database))
  = [1%nat; 0%nat].
Proof.
  split.
  - apply (@match_playlist_shape sample_difflib [lit "song"; lit "no such title"]
             0.5%float sample_database).
  - vm_compute. reflexivity.
Defined.

(** C10. [search] and [match_playlist] leave the database as it was:
    [music_files] with every field of every file, [directories],
    [file_extensions] and [is_scanning]. *)
Theorem search_and_match_playlist_read_only `{Difflib}
    (query : str) (entries : list str) (threshold : float) (self : MusicDatabase) :
  snd (search query threshold self) = self /\
  snd (match_playlist entries threshold self) = self.
Proof.
  rewrite search_spec, match_playlist_spec. split; reflexivity.
Qed.

(** ** The extension filter *)

(** C8, as stated, fails: after [set_extensions({"MP3"})] the file
    [song.mp3], whose extension is in the set when compared without regard
    to case, does not qualify; the set is stored as given. *)
Lemma set_extensions_upper_case_rejects :
  ~ (forall (extensions : gset str) (file : str) (self : MusicDatabase),
       qualifies file (set_extensions extensions self) = true <->
       exists e, e ∈ extensions /\ normalized e = file_ext file).
Proof.
  intros H.
  destruct (H {[lit "MP3"]} (lit "song.mp3") MusicDatabase__init__) as [_ Hq].
  assert (Hc : qualifies (lit "song.mp3")
                 (set_extensions {[lit "MP3"]} MusicDatabase__init__) = true).
  { apply Hq. exists (lit "MP3"). split; [set_solver | vm_compute; reflexivity]. }
  vm_compute in Hc. discriminate.
Qed.

(** C8, amended. [set_extensions] replaces the filter by the given set as
    it is given, nothing being lower-cased or stripped of a dot. A file
    qualifies exactly when its own extension, lower-cased and without the
    dot, is an element of that set; so the filter disregards the case of
    the file name only, and it is the filter of the specification when the
    given extensions are lower-case and without a dot already. *)
Theorem set_extensions_stores_as_given
    (extensions : gset str) (file : str) (self : MusicDatabase) :
  file_extensions (set_extensions extensions self) = extensions /\
  (qualifies file (set_extensions extensions self) = true <->
   slice_from (lower (snd (splitext file))) 1 ∈ extensions) /\
  ((forall e, e ∈ extensions -> normalized e = e) ->
   (qualifies file (set_extensions extensions self) = true <->
    exists e, e ∈ extensions /\ normalized e = file_ext file)).
Proof.
  unfold qualifies, file_ext. cbn [set_extensions set_file_extensions file_extensions].
  rewrite bool_decide_eq_true.
  split_and!; [reflexivity | reflexivity |].
  intros Hnorm. split.
  - intros Hin. eexists. split; [exact Hin | apply Hnorm, Hin].
  - intros (e & Hin & <-). rewrite (Hnorm e Hin). exact Hin.
Qed.

Lemma set_extensions_stores_as_given_witness :
  qualifies (lit "Song.MP3") (set_extensions {[lit "mp3"]} sample_database) = true /\
  qualifies (lit "song.mp3") (set_extensions {[lit ".mp3"]} sample_database) = false.
Proof.
  split.
  - apply (set_extensions_stores_as_given {[lit "mp3"]} (lit "Song.MP3") sample_database).
    + intros e He. apply elem_of_singleton in He as ->. vm_compute. reflexivity.
    + exists (lit "mp3"). split; [apply elem_of_singleton; reflexivity|].
      vm_compute. reflexivity.
  - vm_compute. reflexivity.
Defined.

(** ** Scanning *)

Lemma scan_file_grows (w : World) (root file : str) (self : MusicDatabase) :
  music_files self `prefix_of` music_files (scan_file w root file self).
Proof.
  unfold scan_file. destruct (qualifies file self); [|reflexivity].
  destruct (MusicFile__init__ w (path_join root file)) as [f|]; [|reflexivity].
  cbn. exists [f]. reflexivity.
Qed.

Lemma scan_loop_grows (w : World) (files : list (str * str)) :
  forall self, music_files self `prefix_of` music_files (scan_loop w files self).
Proof.
  induction files as [|[root file] files IH]; intros self; cbn [scan_loop].
  - reflexivity.
  - destruct (negb (is_scanning self)); [reflexivity|].
    etrans; [apply scan_file_grows | apply IH].
Qed.

(** Every state the worker passes through shows a beginning of the list
    it ends with. *)
Lemma scan_trace_grows (w : World) (files : list (str * str)) :
  forall self s, s ∈ scan_trace w files self ->
                 music_files s `prefix_of` music_files (scan_loop w files self).
Proof.
  induction files as [|[root file] files IH]; intros self s Hs;
    cbn [scan_trace scan_loop] in *.
  - apply list_elem_of_singleton in Hs as ->. reflexivity.
  - destruct (negb (is_scanning self)).
    + apply list_elem_of_singleton in Hs as ->. reflexivity.
    + apply elem_of_cons in Hs as [->|Hs].
      * etrans; [apply scan_file_grows | apply scan_loop_grows].
      * apply IH, Hs.
Qed.

Lemma scan_step_grows (w : World) (s s' : MusicDatabase) :
  scan_step w s s' -> music_files s `prefix_of` music_files s'.
Proof.
  destruct 1 as [root file self _ | self | self | extensions self
                 | directory self | directory self].
  - apply scan_file_grows.
  - reflexivity.
  - reflexivity.
  - reflexivity.
  - unfold add_directory.
    destruct (negb (isdir w directory)); [reflexivity|].
    destruct (negb _); reflexivity.
  - unfold remove_directory. destruct (bool_decide _); reflexivity.
Qed.

(** C4, as stated, fails: while [/music] with [a.mp3] and [b.mp3] is
    scanned, the state after the first file shows the record of [a.mp3]
    alone, which is neither the list before the scan nor the list the scan
    ends with. *)
Lemma scan_shows_partial_set :
  ~ (forall (w : World) (self : MusicDatabase),
       is_scanning self = false ->
       let start := snd (scan_directories self) in
       forall s, s ∈ scan_trace w (listing w start) start ->
                 music_files s = music_files self \/
                 music_files s = music_files (_scan_worker w start)).
Proof.
  intros H.
  specialize (H plain_world sample_database eq_refl).
  cbv zeta in H.
  set (start := snd (scan_directories sample_database)) in H.
  specialize (H (scan_file plain_world (lit "/music") (lit "a.mp3") start)).
  destruct H as [H|H].
  - apply list_elem_of_lookup_2 with 1%nat. vm_compute. reflexivity.
  - apply (f_equal (map filename)) in H. vm_compute in H. discriminate.
  - apply (f_equal (@length MusicFile)) in H. vm_compute in H. discriminate.
Qed.

(** C4, amended. Starting a scan empties the visible list at once, and the
    worker appends each record to that same list as soon as it is built.
    What can be seen during a scan is therefore a beginning of the list the
    scan ends with, first of all the empty list; and from one moment of a
    scan to a later one, whatever the worker and the other threads do in
    between, the visible list only grows at its end. *)
Theorem scan_builds_in_place (w : World) (self : MusicDatabase) :
  is_scanning self = false ->
  let start := snd (scan_directories self) in
  music_files start = [] /\
  (forall s, s ∈ scan_trace w (listing w start) start ->
             music_files s `prefix_of` music_files (_scan_worker w start)) /\
  (forall s s', rtc (scan_step w) s s' ->
                music_files s `prefix_of` music_files s').
Proof.
  intros Hidle start. subst start. unfold scan_directories. rewrite Hidle. cbn [snd].
  split_and!.
  - reflexivity.
  - intros s Hs. unfold _scan_worker. cbn [set_is_scanning music_files].
    apply scan_trace_grows, Hs.
  - induction 1 as [s|s s' s'' Hstep _ IH]; [reflexivity|].
    etrans; [apply (scan_step_grows w), Hstep | exact IH].
Qed.

Lemma scan_builds_in_place_witness :
  is_scanning sample_database = false /\
  music_files (snd (scan_directories sample_database)) = [] /\
  map filename (music_files (scan_file plain_world (lit "/music") (lit "a.mp3")
                               (snd (scan_directories sample_database))))
    `prefix_of`
  map filename (music_files (_scan_worker plain_world
                               (snd (scan_directories sample_database)))).
Proof.
  split; [reflexivity|].
  destruct (scan_builds_in_place plain_world sample_database eq_refl) as (H0 & Htrace & _).
  split; [exact H0|].
  destruct (Htrace (scan_file plain_world (lit "/music") (lit "a.mp3")
                      (snd (scan_directories sample_database)))) as [k Hk].
  - apply list_elem_of_lookup_2 with 1%nat. vm_compute. reflexivity.
  - exists (map filename k). rewrite Hk. apply map_app.
Defined.

(** * Further properties of the program *)

(** ** The directory list *)

Lemma list_remove_not_elem_of (x : str) (l : list str) :
  x ∉ l -> list_remove x l = l.
Proof.
  induction l as [|y l IH]; [reflexivity|].
  intros Hx. apply not_elem_of_cons in Hx as [Hne Hx]. simpl.
  rewrite bool_decide_eq_false_2 by congruence. rewrite IH by exact Hx. reflexivity.
Qed.

Lemma list_remove_app_last (x : str) (l : list str) :
  x ∉ l -> list_remove x (l ++ [x]) = l.
Proof.
  induction l as [|y l IH]; simpl.
  - intros _. rewrite bool_decide_eq_true_2 by reflexivity. reflexivity.
  - intros Hx. apply not_elem_of_cons in Hx as [Hne Hx].
    rewrite bool_decide_eq_false_2 by congruence. rewrite IH by exact Hx. reflexivity.
Qed.

Lemma list_remove_elem_of (x y : str) (l : list str) :
  y ∈ list_remove x l -> y ∈ l.
Proof.
  induction l as [|z l IH]; simpl; [trivial|].
  destruct (bool_decide (z = x)).
  - intros H. apply elem_of_cons. right. exact H.
  - intros H. apply elem_of_cons in H as [->|H]; apply elem_of_cons; auto.
Qed.

Lemma list_remove_NoDup (x : str) (l : list str) :
  NoDup l -> NoDup (list_remove x l) /\ x ∉ list_remove x l.
Proof.
  induction 1 as [|y l Hy Hl IH]; simpl.
  - split; [constructor | apply not_elem_of_nil].
  - destruct (bool_decide (y = x)) eqn:E.
    + apply bool_decide_eq_true in E as ->. split; assumption.
    + apply bool_decide_eq_false in E. destruct IH as [IH1 IH2]. split.
      * constructor; [|exact IH1]. intros Hin. apply Hy.
        eapply list_remove_elem_of, Hin.
      * intros Hin. apply elem_of_cons in Hin as [->|Hin]; [congruence | auto].
Qed.

Lemma add_directory_cases (w : World) (directory : str) (self : MusicDatabase) :
  (isdir w directory = true /\ (directory ∉ directories self) /\
   add_directory w directory self
   = (true, set_directories (directories self ++ [directory]) self)) \/
  ((isdir w directory = false \/ (directory ∈ directories self)) /\
   add_directory w directory self = (false, self)).
Proof.
  unfold add_directory.
  destruct (isdir w directory); cbn [negb]; [|right; auto].
  destruct (decide (directory ∈ directories self)) as [Hin|Hin].
  - rewrite (bool_decide_eq_true_2 _ Hin). right. auto.
  - rewrite (bool_decide_eq_false_2 _ Hin). left. auto.
Qed.

(** X1. [add_directory] answers [True] exactly when the path is a directory
    that is not in the list yet, and then appends it; otherwise it changes
    nothing. It never touches the other fields, a second call with the same
    path changes nothing and answers [False], and a list without duplicates
    stays without duplicates. *)
Theorem add_directory_outcome (w : World) (directory : str) (self : MusicDatabase) :
  let r := add_directory w directory self in
  (fst r = true <-> isdir w directory = true /\ directory ∉ directories self) /\
  (fst r = true -> directories (snd r) = directories self ++ [directory]) /\
  (fst r = false -> snd r = self) /\
  music_files (snd r) = music_files self /\
  file_extensions (snd r) = file_extensions self /\
  is_scanning (snd r) = is_scanning self /\
  add_directory w directory (snd r) = (false, snd r) /\
  (NoDup (directories self) -> NoDup (directories (snd r))).
Proof.
  cbv zeta.
  destruct (add_directory_cases w directory self) as [(Hd & Hin & ->)|(Hno & ->)];
    cbn [fst snd set_directories directories music_files file_extensions is_scanning].
  - split_and!; try done.
    + destruct (add_directory_cases w directory
                  (set_directories (directories self ++ [directory]) self))
        as [(_ & Hin' & _)|(_ & ->)]; [|reflexivity].
      exfalso. apply Hin'. cbn. apply elem_of_app. right.
      apply list_elem_of_singleton. reflexivity.
    + intros Hnd. apply NoDup_app. split_and!; [exact Hnd | | apply NoDup_singleton].
      intros x Hx Hx'. apply list_elem_of_singleton in Hx' as ->. contradiction.
  - split_and!; try done.
    + split; [done|]. intros [Hd Hin]. destruct Hno as [Hno|Hno]; [congruence | contradiction].
    + destruct (add_directory_cases w directory self) as [(Hd & Hin & _)|(_ & ->)];
        [|reflexivity].
      destruct Hno as [Hno|Hno]; [congruence | contradiction].
Qed.

(** X2. [remove_directory] answers [True] exactly when the path is in the
    list; when it is not, nothing changes. Nothing is ever added, the other
    fields stay, and from a list without duplicates the path is gone
    afterwards. *)
Theorem remove_directory_outcome (directory : str) (self : MusicDatabase) :
  let r := remove_directory directory self in
  (fst r = true <-> directory ∈ directories self) /\
  (fst r = false -> snd r = self) /\
  (forall d, d ∈ directories (snd r) -> d ∈ directories self) /\
  music_files (snd r) = music_files self /\
  file_extensions (snd r) = file_extensions self /\
  is_scanning (snd r) = is_scanning self /\
  (NoDup (directories self) ->
   NoDup (directories (snd r)) /\ directory ∉ directories (snd r)).
Proof.
  unfold remove_directory.
  destruct (decide (directory ∈ directories self)) as [Hin|Hin].
  - rewrite (bool_decide_eq_true_2 _ Hin). cbn.
    split_and!; try done.
    + intros d. apply list_remove_elem_of.
    + apply list_remove_NoDup.
  - rewrite (bool_decide_eq_false_2 _ Hin). cbn.
    split_and!; try done.
Qed.

(** X3. Adding a directory that was not in the list and removing it again
    gives back the database as it was. *)
Theorem add_then_remove_directory (w : World) (directory : str) (self : MusicDatabase) :
  isdir w directory = true ->
  directory ∉ directories self ->
  fst (add_directory w directory self) = true /\
  remove_directory directory (snd (add_directory w directory self)) = (true, self).
Proof.
  intros Hd Hin. unfold add_directory. rewrite Hd. cbn [negb].
  rewrite (bool_decide_eq_false_2 _ Hin). cbn [negb fst snd].
  split; [reflexivity|].
  unfold remove_directory. cbn [set_directories directories].
  rewrite bool_decide_eq_true_2
    by (apply elem_of_app; right; apply list_elem_of_singleton; reflexivity).
  rewrite (list_remove_app_last _ _ Hin). destruct self; reflexivity.
Qed.

Lemma add_then_remove_directory_witness :
  remove_directory (lit "/other")
    (snd (add_directory plain_world (lit "/other") sample_database))
  = (true, sample_database).
Proof.
  apply (add_then_remove_directory plain_world (lit "/other") sample_database).
  - reflexivity.
  - vm_compute. intros H. apply list_elem_of_singleton in H. discriminate.
Defined.

Lemma load_directories_spec (w : World) (dirs : list str) :
  forall self,
    NoDup (directories self) ->
    NoDup (directories (load_directories w dirs self)) /\
    (forall d, d ∈ directories (load_directories w dirs self) <->
               d ∈ directories self \/ (d ∈ dirs /\ isdir w d = true)) /\
    music_files (load_directories w dirs self) = music_files self /\
    file_extensions (load_directories w dirs self) = file_extensions self /\
    is_scanning (load_directories w dirs self) = is_scanning self.
Proof.
  unfold load_directories.
  induction dirs as [|x dirs IH]; intros self Hnd; cbn [foldl].
  - split_and!; try done. intros d. split; [auto|].
    intros [?|[H _]]; [done | by apply elem_of_nil in H].
  - destruct (add_directory_cases w x self) as [(Hd & Hin & ->)|(Hno & ->)]; cbn [snd].
    + destruct (IH (set_directories (directories self ++ [x]) self))
        as (IH1 & IH2 & IH3 & IH4 & IH5).
      { cbn. apply NoDup_app. split_and!; [exact Hnd | | apply NoDup_singleton].
        intros y Hy Hy'. apply list_elem_of_singleton in Hy' as ->. contradiction. }
      split_and!; [exact IH1 | | exact IH3 | exact IH4 | exact IH5].
      intros d. rewrite IH2. cbn [set_directories directories].
      rewrite elem_of_app, list_elem_of_singleton, elem_of_cons. split.
      * intros [[?| ->]|[? ?]]; auto.
      * intros [?|[[->|?] ?]]; auto.
    + destruct (IH self Hnd) as (IH1 & IH2 & IH3 & IH4 & IH5).
      split_and!; [exact IH1 | | exact IH3 | exact IH4 | exact IH5].
      intros d. rewrite IH2, elem_of_cons. split.
      * intros [?|[? ?]]; auto.
      * intros [?|[[->|?] Hd]]; auto.
        destruct Hno as [Hno|Hno]; [congruence | auto].
Qed.

(** X4. When the application starts, the directories of the settings are
    added one by one to a new database: whatever that list holds, the
    database ends with exactly its entries that are directories, each one
    once. *)
Theorem load_directories_at_start (w : World) (dirs : list str) :
  let db := load_directories w dirs MusicDatabase__init__ in
  NoDup (directories db) /\
  (forall d, d ∈ directories db <-> d ∈ dirs /\ isdir w d = true) /\
  music_files db = [] /\
  is_scanning db = false.
Proof.
  destruct (load_directories_spec w dirs MusicDatabase__init__) as (H1 & H2 & H3 & _ & H5).
  { constructor. }
  split_and!; [exact H1 | | exact H3 | exact H5].
  intros d. rewrite H2. cbn. split; [|auto].
  intros [H|?]; [by apply elem_of_nil in H | done].
Qed.

(** ** Whole scans *)

Lemma scan_file_frame (w : World) (root file : str) (self : MusicDatabase) :
  directories (scan_file w root file self) = directories self /\
  file_extensions (scan_file w root file self) = file_extensions self /\
  is_scanning (scan_file w root file self) = is_scanning self.
Proof.
  unfold scan_file. destruct (qualifies file self); [|done].
  destruct (MusicFile__init__ w (path_join root file)); done.
Qed.

Lemma scan_file_built (w : World) (rf : str * str) (self : MusicDatabase) :
  music_files (scan_file w (fst rf) (snd rf) self)
  = music_files self ++ option_list (built w self rf).
Proof.
  unfold scan_file, built. destruct (qualifies (snd rf) self); cbn.
  - destruct (MusicFile__init__ w (path_join (fst rf) (snd rf))); cbn;
      [reflexivity | symmetry; apply app_nil_r].
  - symmetry. apply app_nil_r.
Qed.

Lemma built_ext (w : World) (s s' : MusicDatabase) (rf : str * str) :
  file_extensions s' = file_extensions s -> built w s' rf = built w s rf.
Proof. unfold built, qualifies. intros ->. reflexivity. Qed.

(** The loop of the worker, as long as the flag stays up: the records of the
    files are appended in the order of the walk, and nothing else changes. *)
Lemma scan_loop_spec (w : World) (files : list (str * str)) :
  forall self,
    is_scanning self = true ->
    scan_loop w files self
    = set_music_files (music_files self ++ omap (built w self) files) self.
Proof.
  induction files as [|[root file] files IH]; intros self Hs; cbn [scan_loop omap].
  - rewrite app_nil_r. destruct self; reflexivity.
  - rewrite Hs. cbn [negb].
    destruct (scan_file_frame w root file self) as (Hd & He & Hsc).
    rewrite IH by congruence.
    pose proof (scan_file_built w (root, file) self) as Hb.
    cbn [fst snd] in Hb. rewrite Hb. clear Hb.
    assert (Homap : omap (built w (scan_file w root file self)) files
                    = omap (built w self) files).
    { clear IH. induction files as [|rf files IHf]; [reflexivity|].
      cbn [omap list_omap]. rewrite (built_ext w self _ rf He), IHf. reflexivity. }
    rewrite Homap.
    replace (set_music_files _ (scan_file w root file self))
      with (set_music_files
              ((music_files self ++ option_list (built w self (root, file)))
               ++ omap (built w self) files) self).
    2:{ unfold set_music_files. rewrite Hd, He, Hsc. reflexivity. }
    f_equal. rewrite <- app_assoc. f_equal.
    cbn [omap list_omap]. destruct (built w self (root, file)); reflexivity.
Qed.

(** X5. What a scan computes. Started on a database that is not scanning
    and run to its end, it leaves [music_files] made of exactly the records
    of the walked files whose extension is wanted and whose constructor
    does not raise, in the order of the walk; the flag is down again, and
    directories and extensions are as before. *)
Theorem full_scan_result (w : World) (self : MusicDatabase) :
  is_scanning self = false ->
  full_scan w self
  = {| music_files := omap (built w self) (listing w self);
       directories := directories self;
       file_extensions := file_extensions self;
       is_scanning := false |}.
Proof.
  intros Hidle. unfold full_scan, scan_directories, _scan_worker. rewrite Hidle.
  cbn [snd]. rewrite scan_loop_spec by reflexivity.
  destruct self; reflexivity.
Qed.

Lemma full_scan_result_witness :
  is_scanning sample_database = false /\
  map filename (music_files (full_scan plain_world sample_database))
  = [lit "a.mp3"; lit "b.mp3"].
Proof.
  split; [reflexivity|].
  rewrite (full_scan_result plain_world sample_database eq_refl).
  vm_compute. reflexivity.
Defined.

(** X6. A scan is a full rebuild: its outcome does not depend on the
    records the database held before, so scanning a second time with the
    file system unchanged gives the same database again, and no record
    twice. *)
Theorem rescan_gives_same_result
    (w : World) (self : MusicDatabase) (previous : list MusicFile) :
  is_scanning self = false ->
  full_scan w (set_music_files previous self) = full_scan w self /\
  full_scan w (full_scan w self) = full_scan w self.
Proof.
  intros Hidle.
  assert (H1 : full_scan w (set_music_files previous self) = full_scan w self).
  { rewrite !full_scan_result by exact Hidle. reflexivity. }
  split; [exact H1|].
  rewrite (full_scan_result w self Hidle) at 1.
  rewrite full_scan_result by reflexivity.
  rewrite (full_scan_result w self Hidle). reflexivity.
Qed.

Lemma rescan_gives_same_result_witness :
  is_scanning sample_database = false /\
  full_scan plain_world (full_scan plain_world sample_database)
  = full_scan plain_world sample_database.
Proof.
  split; [reflexivity|].
  apply (rescan_gives_same_result plain_world sample_database [] eq_refl).
Defined.

Lemma scan_loop_cancelled (w : World) (files : list (str * str)) (self : MusicDatabase) :
  is_scanning self = false -> scan_loop w files self = self.
Proof.
  intros Hs. destruct files as [|[root file] files]; [reflexivity|].
  cbn [scan_loop]. rewrite Hs. reflexivity.
Qed.

(** X7. Cancelling a scan. When [cancel_scan] comes after the worker has
    handled the files [done] and before it handles the files [rest], no
    file of [rest] is looked at: the scan ends with the records of [done]
    alone, the flag down. *)
Theorem cancelled_scan_keeps_what_was_built
    (w : World) (done rest : list (str * str)) (self : MusicDatabase) :
  is_scanning self = true ->
  set_is_scanning false (scan_loop w rest (cancel_scan (scan_loop w done self)))
  = set_is_scanning false
      (set_music_files (music_files self ++ omap (built w self) done) self).
Proof.
  intros Hs. rewrite (scan_loop_spec w done self Hs).
  rewrite scan_loop_cancelled by reflexivity. reflexivity.
Qed.

Lemma cancelled_scan_keeps_what_was_built_witness :
  map filename
    (music_files
       (set_is_scanning false
          (scan_loop plain_world [(lit "/music", lit "b.mp3")]
             (cancel_scan
                (scan_loop plain_world [(lit "/music", lit "a.mp3")]
                   (snd (scan_directories sample_database)))))))
  = [lit "a.mp3"].
Proof.
  rewrite (cancelled_scan_keeps_what_was_built plain_world
             [(lit "/music", lit "a.mp3")] [(lit "/music", lit "b.mp3")]
             (snd (scan_directories sample_database)) eq_refl).
  vm_compute. reflexivity.
Defined.

(** X8. The guard against a second scan is the flag, which a cancellation
    lowers at once. While a worker is in its loop with the flag up, whatever
    files it has handled, [scan_directories] answers [False] and changes
    nothing. After [cancel_scan] it is accepted even though that worker has
    files left: it empties the list and raises the flag again, and a worker
    of the cancelled scan that tests the flag only now finds it up, goes
    through all the files it had left and appends their records to the new
    list. *)
Theorem cancel_reopens_the_scan_guard (w : World) (self : MusicDatabase)
    (done rest : list (str * str)) :
  is_scanning self = false ->
  let running := scan_loop w done (snd (scan_directories self)) in
  let restarted := snd (scan_directories (cancel_scan running)) in
  scan_directories running = (false, running) /\
  fst (scan_directories (cancel_scan running)) = true /\
  music_files restarted = [] /\
  is_scanning restarted = true /\
  music_files (scan_loop w rest restarted) = omap (built w self) rest /\
  is_scanning (scan_loop w rest restarted) = true.
Proof.
  intros Hidle running restarted.
  assert (Hrunning : running
            = set_music_files (omap (built w (snd (scan_directories self))) done)
                (snd (scan_directories self))).
  { subst running. unfold scan_directories. rewrite Hidle. cbn [snd].
    rewrite scan_loop_spec by reflexivity. reflexivity. }
  assert (Hext : file_extensions restarted = file_extensions self).
  { subst restarted. rewrite Hrunning. unfold scan_directories. rewrite Hidle.
    reflexivity. }
  assert (Hup : is_scanning restarted = true) by reflexivity.
  split_and!.
  - rewrite Hrunning. unfold scan_directories. rewrite Hidle. reflexivity.
  - reflexivity.
  - reflexivity.
  - exact Hup.
  - rewrite (scan_loop_spec w rest restarted Hup). cbn [set_music_files music_files].
    change (music_files restarted) with (@nil MusicFile). cbn [app].
    induction rest as [|rf rest IH]; [reflexivity|].
    cbn [omap list_omap]. rewrite (built_ext w self restarted rf Hext), IH.
    reflexivity.
  - rewrite (scan_loop_spec w rest restarted Hup). exact Hup.
Qed.

Lemma cancel_reopens_the_scan_guard_witness :
  is_scanning sample_database = false /\
  length (music_files
            (scan_loop plain_world [(lit "/music", lit "b.mp3")]
               (snd (scan_directories
                       (cancel_scan
                          (scan_loop plain_world [(lit "/music", lit "a.mp3")]
                             (snd (scan_directories sample_database)))))))) = 1%nat.
Proof.
  split; [reflexivity|].
  destruct (cancel_reopens_the_scan_guard plain_world sample_database
              [(lit "/music", lit "a.mp3")] [(lit "/music", lit "b.mp3")] eq_refl)
    as (_ & _ & _ & _ & H & _).
  rewrite H. vm_compute. reflexivity.
Defined.

(** ** Extensions and paths *)

Ltac all_chars c := destruct c as [[] [] [] [] [] [] [] []]; vm_compute; try congruence.

Lemma lower_char_idemp (c : ascii) : lower_char (lower_char c) = lower_char c.
Proof. all_chars c. Qed.

Lemma isspace_lower_char (c : ascii) : isspace (lower_char c) = isspace c.
Proof. all_chars c. Qed.

Lemma lower_char_dot (c : ascii) : lower_char c = "."%char -> c = "."%char.
Proof. all_chars c. Qed.

Lemma lower_char_slash (c : ascii) : lower_char c = "/"%char -> c = "/"%char.
Proof. all_chars c. Qed.

Lemma lower_idemp (s : str) : lower (lower s) = lower s.
Proof.
  unfold lower. rewrite map_map. apply map_ext. intros c. apply lower_char_idemp.
Qed.

Lemma chr_eqb_neq (a b : ascii) : chr_eqb a b = false <-> a <> b.
Proof. unfold chr_eqb. apply Ascii.eqb_neq. Qed.

(** [rfind]: the index of the last occurrence, after which the character
    does not occur; the start value when there is none. *)
Lemma rfind_from_spec (c : ascii) (s : str) :
  forall i found,
    (c ∉ s -> rfind_from i found c s = found) /\
    (c ∈ s -> exists s1 s2, s = s1 ++ c :: s2 /\ (c ∉ s2) /\
                            rfind_from i found c s = i + Z.of_nat (length s1)).
Proof.
  induction s as [|a s IH]; intros i found; cbn [rfind_from].
  - split; [reflexivity|]. intros H. by apply elem_of_nil in H.
  - destruct (IH (i + 1) (if chr_eqb a c then i else found)) as [IHn IHy].
    destruct (decide (c ∈ s)) as [Hin|Hin].
    + split; [intros Hc; exfalso; apply Hc; apply elem_of_cons; auto|].
      intros _. destruct (IHy Hin) as (s1 & s2 & -> & Hs2 & ->).
      exists (a :: s1), s2. split_and!; [reflexivity | exact Hs2 | cbn [length]; lia].
    + rewrite (IHn Hin). split.
      * intros Hc. apply not_elem_of_cons in Hc as [Hne _].
        destruct (chr_eqb a c) eqn:E; [|reflexivity].
        apply chr_eqb_eq in E. congruence.
      * intros Hc. apply elem_of_cons in Hc as [->|Hc]; [|contradiction].
        exists [], s. split_and!; [reflexivity | exact Hin |].
        rewrite (proj2 (chr_eqb_eq a a) eq_refl). cbn [length]. lia.
Qed.

Lemma rfind_absent (s : str) (c : ascii) : c ∉ s -> rfind s c = -1.
Proof. intros H. apply (rfind_from_spec c s 0 (-1)), H. Qed.

Lemma rfind_present (s : str) (c : ascii) :
  c ∈ s -> exists s1 s2, s = s1 ++ c :: s2 /\ (c ∉ s2) /\ rfind s c = Z.of_nat (length s1).
Proof.
  intros H. destruct (proj2 (rfind_from_spec c s 0 (-1)) H) as (s1 & s2 & ? & ? & E).
  exists s1, s2. split_and!; assumption.
Qed.

Lemma rfind_lower_bound (s : str) (c : ascii) : -1 <= rfind s c.
Proof.
  destruct (decide (c ∈ s)) as [H|H].
  - destruct (rfind_present s c H) as (? & ? & _ & _ & ->). lia.
  - rewrite (rfind_absent s c H). lia.
Qed.

(** The two outcomes of [splitext]: no extension, or the path cut before its
    last dot, with no further dot and no separator after that dot. *)
Lemma splitext_cases (p : str) :
  splitext p = (p, []) \/
  exists root e, splitext p = (root, "."%char :: e) /\ p = root ++ "."%char :: e /\
                 ("."%char ∉ e) /\ ("/"%char ∉ e).
Proof.
  unfold splitext.
  destruct (decide ("."%char ∈ p)) as [Hdot|Hdot].
  2:{ rewrite (rfind_absent p "." Hdot).
      pose proof (rfind_lower_bound p "/").
      destruct (rfind p "/" <? -1) eqn:E; [apply Z.ltb_lt in E; lia|].
      left. reflexivity. }
  destruct (rfind_present p "." Hdot) as (s1 & s2 & Hp & Hs2 & Hd). rewrite Hd.
  destruct ((rfind p "/" <? Z.of_nat (length s1)) && _) eqn:E; [|left; reflexivity].
  right. apply andb_true_iff in E as [Hlt _]. apply Z.ltb_lt in Hlt.
  exists s1, s2.
  assert (Ht : slice_to p (Z.of_nat (length s1)) = s1).
  { unfold slice_to. rewrite Nat2Z.id, Hp. apply take_app_length. }
  assert (Hf : slice_from p (Z.of_nat (length s1)) = "."%char :: s2).
  { unfold slice_from. rewrite Nat2Z.id, Hp. apply drop_app_length. }
  rewrite Ht, Hf. split_and!; [reflexivity | exact Hp | exact Hs2 |].
  intros Hsl.
  assert (Hin : "/"%char ∈ p).
  { rewrite Hp. apply elem_of_app. right. apply elem_of_cons. right. exact Hsl. }
  destruct (rfind_present p "/" Hin) as (t1 & t2 & Hp' & Ht2 & Hsep).
  rewrite Hsep in Hlt. apply Ht2.
  assert (Hs : s2 = drop (S (length s1)) p).
  { rewrite Hp, (cons_middle "."%char s1 s2), app_assoc.
    symmetry. apply drop_app_length'. rewrite length_app. cbn [length]. lia. }
  assert (Ht' : t2 = drop (S (length t1)) p).
  { rewrite Hp', (cons_middle "/"%char t1 t2), app_assoc.
    symmetry. apply drop_app_length'. rewrite length_app. cbn [length]. lia. }
  assert (Hdrop : s2 = drop (length s1 - length t1) t2).
  { rewrite Ht', drop_drop, Hs. f_equal. lia. }
  rewrite Hdrop in Hsl. eapply subseteq_drop, Hsl.
Qed.

Lemma rfind_from_app (c : ascii) (s1 s2 : str) :
  forall i found,
    rfind_from i found c (s1 ++ s2)
    = rfind_from (i + Z.of_nat (length s1)) (rfind_from i found c s1) c s2.
Proof.
  induction s1 as [|a s1 IH]; intros i found; cbn [app rfind_from length].
  - rewrite Z.add_0_r. reflexivity.
  - rewrite IH. f_equal. lia.
Qed.

Lemma rfind_last (s1 s2 : str) (c : ascii) :
  c ∉ s2 -> rfind (s1 ++ c :: s2) c = Z.of_nat (length s1).
Proof.
  intros H. unfold rfind. rewrite rfind_from_app. cbn [rfind_from].
  rewrite (proj2 (chr_eqb_eq c c) eq_refl).
  rewrite (proj1 (rfind_from_spec c s2 _ _) H). lia.
Qed.

Lemma rfind_app_absent (s1 s2 : str) (c : ascii) :
  c ∉ s2 -> rfind (s1 ++ s2) c = rfind s1 c.
Proof.
  intros H. unfold rfind. rewrite rfind_from_app.
  apply (rfind_from_spec c s2), H.
Qed.

Lemma rfind_upper_bound (s : str) (c : ascii) : rfind s c < Z.of_nat (length s).
Proof.
  destruct (decide (c ∈ s)) as [H|H].
  - destruct (rfind_present s c H) as (s1 & s2 & -> & _ & ->).
    rewrite length_app. cbn [length]. lia.
  - rewrite (rfind_absent s c H). lia.
Qed.

Lemma path_join_prefix (root file : str) :
  "/"%char ∉ file -> exists a, dir_prefix a /\ path_join root file = a ++ file.
Proof.
  intros Hf. unfold path_join.
  assert (Hs : startswith file (lit "/") = false).
  { destruct file as [|c file]; [reflexivity|].
    change (startswith (c :: file) (lit "/"))
      with (chr_eqb "/" c && startswith file []).
    destruct (chr_eqb "/" c) eqn:E; [|reflexivity].
    apply chr_eqb_eq in E. subst c. exfalso. apply Hf. apply elem_of_cons. auto. }
  rewrite Hs.
  destruct root as [|r root]; cbn [truthy negb orb].
  { exists []. split; [left; reflexivity | reflexivity]. }
  destruct (startswith (rev (r :: root)) (lit "/")) eqn:E.
  - exists (r :: root). split; [|reflexivity]. right.
    apply startswith_spec in E as [t Ht].
    exists (rev t). apply (f_equal (@rev ascii)) in Ht.
    rewrite rev_involutive in Ht. rewrite Ht. cbn. reflexivity.
  - exists ((r :: root) ++ ["/"%char]). split; [right; eauto|].
    rewrite <- app_assoc. reflexivity.
Qed.

Lemma rfind_sep_prefix (a file : str) :
  dir_prefix a -> "/"%char ∉ file ->
  rfind (a ++ file) "/" = Z.of_nat (length a) - 1.
Proof.
  intros [->|[a' ->]] Hf.
  - cbn. apply rfind_absent, Hf.
  - rewrite <- app_assoc. cbn [app]. rewrite (rfind_last a' file "/" Hf).
    rewrite length_app. cbn [length]. lia.
Qed.

Lemma basename_prefix (a file : str) :
  dir_prefix a -> "/"%char ∉ file -> basename (a ++ file) = file.
Proof.
  intros Ha Hf. unfold basename, slice_from.
  rewrite (rfind_sep_prefix a file Ha Hf).
  replace (Z.to_nat (Z.of_nat (length a) - 1 + 1)) with (length a) by lia.
  apply drop_app_length.
Qed.

Lemma rfind_dot_prefix (a : str) :
  dir_prefix a -> rfind a "." <= Z.of_nat (length a) - 1 /\
                  (a <> [] -> rfind a "." < Z.of_nat (length a) - 1).
Proof.
  intros [->|[a' ->]].
  - cbn. split; [lia | congruence].
  - rewrite rfind_app_absent.
    2:{ intros H. apply list_elem_of_singleton in H. discriminate. }
    pose proof (rfind_upper_bound a' "."). rewrite length_app. cbn [length]. lia.
Qed.

(** The extension of a joined path is the extension of the file name. *)
Lemma splitext_prefix_snd (a file : str) :
  dir_prefix a -> "/"%char ∉ file ->
  snd (splitext (a ++ file)) = snd (splitext file).
Proof.
  intros Ha Hf. unfold splitext.
  rewrite (rfind_sep_prefix a file Ha Hf).
  rewrite (rfind_absent file "/" Hf).
  destruct (decide ("."%char ∈ file)) as [Hdot|Hdot].
  - destruct (rfind_present file "." Hdot) as (f1 & f2 & -> & Hf2 & Hd).
    rewrite Hd. rewrite app_assoc, (rfind_last (a ++ f1) f2 "." Hf2).
    assert (Hs1 : slice ((a ++ f1) ++ "."%char :: f2)
                    (Z.of_nat (length a) - 1 + 1) (Z.of_nat (length (a ++ f1))) = f1).
    { unfold slice. rewrite length_app.
      replace (Z.to_nat (Z.of_nat (length a) - 1 + 1)) with (length a) by lia.
      rewrite Nat2Z.id. replace (length a + length f1 - length a)%nat with (length f1) by lia.
      rewrite <- !app_assoc, drop_app_length. apply take_app_length. }
    assert (Hs2 : slice (f1 ++ "."%char :: f2) (-1 + 1) (Z.of_nat (length f1)) = f1).
    { unfold slice. cbn [Z.add Z.to_nat]. rewrite Nat2Z.id, Nat.sub_0_r.
      cbn [drop]. apply take_app_length. }
    rewrite Hs1, Hs2.
    assert (H1 : (Z.of_nat (length a) - 1 <? Z.of_nat (length (a ++ f1))) = true).
    { apply Z.ltb_lt. rewrite length_app. lia. }
    assert (H2 : (-1 <? Z.of_nat (length f1)) = true) by (apply Z.ltb_lt; lia).
    rewrite H1, H2. cbn [andb].
    destruct (existsb _ f1); [|reflexivity]. cbn [snd].
    unfold slice_from. rewrite !Nat2Z.id.
    rewrite (drop_app_length (a ++ f1)), (drop_app_length f1). reflexivity.
  - rewrite (rfind_app_absent a file "." Hdot), (rfind_absent file "." Hdot).
    destruct (rfind_dot_prefix a Ha) as [Hle _].
    destruct (Z.of_nat (length a) - 1 <? rfind a ".") eqn:E;
      [apply Z.ltb_lt in E; lia|].
    reflexivity.
Qed.

Lemma try_artist_first_frame (ps : list regex) (name : str) :
  forall s s1 r, try_artist_first ps name s = (s1, r) ->
    full_path s1 = full_path s /\ filename s1 = filename s /\
    extension s1 = extension s /\ size s1 = size s /\
    track_num s1 = track_num s /\ metadata s1 = metadata s.
Proof.
  induction ps as [|q ps IH]; intros s s1 r E; cbn [try_artist_first] in E.
  - injection E as <- _. done.
  - destruct (re_match q name); [|eauto].
    cbn [set_artist set_song artist song] in E.
    destruct (_ && _); [injection E as <- _; done|].
    apply IH in E. exact E.
Qed.

Lemma try_song_first_frame (ps : list regex) (name : str) :
  forall s s1 r, try_song_first ps name s = (s1, r) ->
    full_path s1 = full_path s /\ filename s1 = filename s /\
    extension s1 = extension s /\ size s1 = size s /\
    track_num s1 = track_num s /\ metadata s1 = metadata s.
Proof.
  induction ps as [|q ps IH]; intros s s1 r E; cbn [try_song_first] in E.
  - injection E as <- _. done.
  - destruct (re_match q name); [|eauto].
    cbn [set_artist set_song artist song] in E.
    destruct (_ && _); [injection E as <- _; done|].
    apply IH in E. exact E.
Qed.

(** [_parse_filename] assigns [artist], [song] and [track_num] only, and
    [track_num] only when the track pattern matches. *)
Lemma parse_filename_frame (self : MusicFile) :
  let p := _parse_filename self in
  full_path p = full_path self /\ filename p = filename self /\
  extension p = extension self /\ size p = size self /\
  metadata p = metadata self /\
  track_num p = match fst (extract_track (stem self)) with
                | Some n => Some n
                | None => track_num self
                end.
Proof.
  unfold _parse_filename.
  destruct (extract_track (stem self)) as [num name]. cbn [fst].
  set (s0 := match num with Some n => set_track_num (Some n) self | None => self end).
  assert (Hs0 : full_path s0 = full_path self /\ filename s0 = filename self /\
                extension s0 = extension self /\ size s0 = size self /\
                metadata s0 = metadata self /\
                track_num s0 = match num with Some n => Some n | None => track_num self end)
    by (subst s0; destruct num; done).
  clearbody s0.
  destruct (try_artist_first _ name s0) as [s1 r1] eqn:E1.
  apply try_artist_first_frame in E1.
  destruct r1; [cbv zeta; intuition congruence|].
  destruct (try_song_first _ name s1) as [s2 r2] eqn:E2.
  apply try_song_first_frame in E2.
  destruct r2; [cbv zeta; intuition congruence|].
  unfold whole_name_fallback. destruct (_ && _); cbn; intuition congruence.
Qed.

Lemma extract_metadata_frame (w : World) (self : MusicFile) :
  let self' := snd (_extract_metadata w self) in
  full_path self' = full_path self /\ filename self' = filename self /\
  extension self' = extension self /\ size self' = size self /\
  metadata self' = metadata self.
Proof.
  unfold _extract_metadata.
  destruct (_ && _); [|done].
  destruct (mutagen_File w (full_path self)) as [| |audio]; [done..|].
  destruct (has_tags audio); [|done].
  destruct (fill_from_tag (artist self) _ audio); [|done].
  cbn [set_artist song].
  destruct (fill_from_tag (song self) _ audio); done.
Qed.

(** The fields a finished object takes from its path. *)
Lemma init_fields (w : World) (path : str) (f : MusicFile) :
  MusicFile__init__ w path = Some f ->
  full_path f = path /\ filename f = basename path /\
  extension f = file_ext path /\ getsize w path = Some (size f).
Proof.
  unfold MusicFile__init__.
  destruct (getsize w path) as [sz|]; [|discriminate].
  pose proof (parse_filename_frame (new_MusicFile path sz)) as (H1 & H2 & H3 & H4 & _).
  pose proof (extract_metadata_frame w (_parse_filename (new_MusicFile path sz)))
    as (G1 & G2 & G3 & G4 & _).
  destruct (_extract_metadata w _) as [md f']. cbn [snd] in *.
  intros [= <-]. cbn [set_metadata full_path filename extension size].
  rewrite G1, G2, G3, G4, H1, H2, H3, H4. done.
Qed.

(** X9. The extension of a finished object is lower-case and holds neither
    a dot nor a separator; it is empty, or the path is its stem, a dot, and
    a text whose lower-casing is the extension. *)
Theorem extension_is_normalized (w : World) (path : str) (f : MusicFile) :
  MusicFile__init__ w path = Some f ->
  lower (extension f) = extension f /\
  ("."%char ∉ extension f) /\
  ("/"%char ∉ extension f) /\
  ((splitext path = (path, []) /\ extension f = []) \/
   exists e, path = fst (splitext path) ++ "."%char :: e /\ extension f = lower e).
Proof.
  intros Hf. apply init_fields in Hf as (_ & _ & -> & _).
  unfold file_ext.
  destruct (splitext_cases path) as [->|(root & e & -> & Hp & Hdot & Hsl)]; cbn [fst snd].
  - cbn. split_and!; [reflexivity | apply not_elem_of_nil | apply not_elem_of_nil |].
    left. done.
  - unfold slice_from. cbn [lower map Z.to_nat Pos.to_nat Pos.iter_op drop].
    fold (lower e). split_and!.
    + apply lower_idemp.
    + intros H. apply list_elem_of_fmap in H as (c & Hc & Hin).
      symmetry in Hc. apply lower_char_dot in Hc. congruence.
    + intros H. apply list_elem_of_fmap in H as (c & Hc & Hin).
      symmetry in Hc. apply lower_char_slash in Hc. congruence.
    + right. exists e. done.
Qed.

Lemma extension_is_normalized_witness :
  exists f, MusicFile__init__ plain_world (lit "/music/Live.Set/Song.FLAC") = Some f /\
            extension f = lit "flac" /\ lower (extension f) = extension f.
Proof.
  eexists. split; [vm_compute; reflexivity|].
  split; [vm_compute; reflexivity|].
  eapply (extension_is_normalized plain_world (lit "/music/Live.Set/Song.FLAC")).
  vm_compute. reflexivity.
Defined.

Lemma built_Some (w : World) (self : MusicDatabase) (rf : str * str) (f : MusicFile) :
  built w self rf = Some f ->
  qualifies (snd rf) self = true /\
  MusicFile__init__ w (path_join (fst rf) (snd rf)) = Some f.
Proof.
  unfold built. destruct (qualifies (snd rf) self); [auto | discriminate].
Qed.

Lemma listing_walked (w : World) (self : MusicDatabase) (root file : str) :
  (root, file) ∈ listing w self ->
  exists directory files,
    directory ∈ directories self /\ (root, files) ∈ walk w directory /\ file ∈ files.
Proof.
  unfold listing. intros H.
  apply list_elem_of_bind in H as (directory & H & Hd).
  apply list_elem_of_bind in H as ([root' files] & H & Hw).
  apply list_elem_of_bind in H as (file' & H & Hf).
  apply list_elem_of_singleton in H. injection H as -> ->.
  eauto.
Qed.

(** X10. The records of a scan fit the filter and the walk. When the walk
    gives plain file names (no separator in them, as [os.walk] does), every
    record of a finished scan has its extension in the extension filter,
    and comes from a walked file: its path is that file's directory joined
    with its name, and its [filename] is that name. *)
Theorem scanned_records_fit_filter (w : World) (self : MusicDatabase) :
  is_scanning self = false ->
  (forall directory root files file,
     (root, files) ∈ walk w directory -> file ∈ files -> "/"%char ∉ file) ->
  forall f, f ∈ music_files (full_scan w self) ->
    extension f ∈ file_extensions self /\
    exists root file, (root, file) ∈ listing w self /\
                      full_path f = path_join root file /\ filename f = file.
Proof.
  intros Hidle Hplain f. unfold full_scan, scan_directories, _scan_worker.
  rewrite Hidle. cbn [snd]. rewrite scan_loop_spec by reflexivity.
  cbn [set_is_scanning set_music_files music_files app].
  intros Hin. apply list_elem_of_omap in Hin as ([root file] & Hin & Hb).
  assert (Hb' : built w self (root, file) = Some f).
  { rewrite <- Hb. apply built_ext. reflexivity. }
  clear Hb. apply built_Some in Hb' as [Hq Hinit]. cbn [fst snd] in *.
  assert (Hlist : (root, file) ∈ listing w self).
  { revert Hin. unfold listing. cbn [directories set_music_files set_is_scanning]. done. }
  destruct (listing_walked w self root file Hlist) as (directory & files & _ & Hw & Hfile).
  pose proof (Hplain directory root files file Hw Hfile) as Hsep.
  apply init_fields in Hinit as (Hpath & Hname & Hext & _).
  destruct (path_join_prefix root file Hsep) as (a & Ha & Hjoin).
  split.
  - rewrite Hext. unfold file_ext. rewrite Hjoin, (splitext_prefix_snd a file Ha Hsep).
    unfold qualifies in Hq. apply bool_decide_eq_true in Hq. exact Hq.
  - exists root, file. split_and!; [exact Hlist | exact Hpath |].
    rewrite Hname, Hjoin. apply basename_prefix; assumption.
Qed.

Lemma scanned_records_fit_filter_witness :
  Forall (fun f => extension f ∈ file_extensions sample_database)
         (music_files (full_scan plain_world sample_database)).
Proof.
  apply Forall_forall. intros f Hf.
  apply (scanned_records_fit_filter plain_world sample_database); [reflexivity | | exact Hf].
  intros directory root files file Hw Hfile. cbn [walk plain_world] in Hw.
  destruct (bool_decide (directory = lit "/music")); [|by apply elem_of_nil in Hw].
  apply list_elem_of_singleton in Hw. injection Hw as -> ->.
  apply elem_of_cons in Hfile as [->|Hfile];
    [vm_compute; intros H; repeat (apply elem_of_cons in H as [H|H]; [discriminate|]);
     by apply elem_of_nil in H|].
  apply list_elem_of_singleton in Hfile as ->.
  vm_compute. intros H. repeat (apply elem_of_cons in H as [H|H]; [discriminate|]).
  by apply elem_of_nil in H.
Defined.

(** ** More on the score and on [search] *)

Lemma lstrip_lower (s : str) : lstrip (lower s) = lower (lstrip s).
Proof.
  induction s as [|c s IH]; [reflexivity|].
  cbn [lower map lstrip]. rewrite isspace_lower_char.
  destruct (isspace c); [exact IH | reflexivity].
Qed.

Lemma rev_lower (s : str) : rev (lower s) = lower (rev s).
Proof. unfold lower. symmetry. apply map_rev. Qed.

Lemma strip_lower (s : str) : strip (lower s) = lower (strip s).
Proof.
  unfold strip, rstrip.
  rewrite lstrip_lower, rev_lower, lstrip_lower, rev_lower. reflexivity.
Qed.

Lemma truthy_lower (s : str) : truthy (lower s) = truthy s.
Proof. destruct s; reflexivity. Qed.

Lemma match_text_lower_cased (f : MusicFile) : match_text (lower_cased f) = match_text f.
Proof. unfold match_text. cbn [lower_cased filename artist song]. rewrite !lower_idemp. reflexivity. Qed.

Lemma score_lower_query `{Difflib} (query : str) (threshold : float) (f : MusicFile) :
  score (lower query) threshold f = score query threshold f.
Proof. unfold score, match_query. rewrite lower_idemp. reflexivity. Qed.

(** X11. Matching ignores case. The score of a file for a query is the
    score for the lower-cased query, and the score of the file with its
    file name, artist and song lower-cased; [search] returns for the
    lower-cased query what it returns for the query. *)
Theorem matching_ignores_case `{Difflib}
    (query : str) (threshold : float) (f : MusicFile) (self : MusicDatabase) :
  score (lower query) threshold f = score query threshold f /\
  score query threshold (lower_cased f) = score query threshold f /\
  fst (search (lower query) threshold self) = fst (search query threshold self).
Proof.
  split_and!.
  - apply score_lower_query.
  - unfold score, match_query. rewrite match_text_lower_cased.
    cbn [lower_cased artist song]. rewrite !lower_idemp.
    destruct (_ || _); [reflexivity|].
    destruct (threshold <=? 0.5)%float; reflexivity.
  - rewrite !search_spec. cbn [fst].
    rewrite strip_lower, truthy_lower.
    destruct (truthy (strip query)); [|reflexivity].
    unfold filter_and_sort, scored. do 2 f_equal.
    apply map_ext. intros g. rewrite score_lower_query. reflexivity.
Qed.

Lemma max3_cases (a b c : float) : max3 a b c = a \/ max3 a b c = b \/ max3 a b c = c.
Proof.
  unfold max3. destruct (a <? b)%float.
  - destruct (b <? c)%float; auto.
  - destruct (a <? c)%float; auto.
Qed.

(** X12. The score lies between 0 and 1 as soon as the ratios of [difflib]
    do. *)
Theorem score_between_0_and_1 `{Difflib}
    (query : str) (threshold : float) (f : MusicFile) :
  (forall a b, (0 <=? ratio a b)%float = true /\ (ratio a b <=? 1)%float = true) ->
  (0 <=? score query threshold f)%float = true /\
  (score query threshold f <=? 1)%float = true.
Proof.
  intros Hr. unfold score, match_query.
  destruct (_ || _); [cbn; split; reflexivity|].
  destruct (threshold <=? 0.5)%float; [cbn; split; reflexivity|].
  cbn [fst].
  destruct (max3_cases (ratio (lower query) (match_text f))
              (ratio (lower query) (lower (artist f) ++ lit " - " ++ lower (song f)))
              (ratio (lower query) (lower (song f) ++ lit " - " ++ lower (artist f))))
    as [-> | [-> | ->]]; apply Hr.
Qed.

Lemma score_between_0_and_1_witness :
  (0 <=? @score sample_difflib (lit "artist song") 0.75%float sample_file)%float = true /\
  (@score sample_difflib (lit "artist song") 0.75%float sample_file <=? 1)%float = true.
Proof.
  apply (@score_between_0_and_1 sample_difflib).
  intros a b. cbn [ratio sample_difflib].
  destruct (bool_decide (a = b)); split; reflexivity.
Defined.

Lemma score_fast_path `{Difflib} (query : str) (threshold : float) (f : MusicFile) :
  (threshold <=? 0.5)%float = true ->
  score query threshold f = if passes_gate query f then 1%float else 0%float.
Proof.
  intros Ht. unfold score, match_query, passes_gate.
  destruct (bool_decide (word_set (lower query) ≠ ∅)); cbn [negb orb andb]; [|reflexivity].
  destruct (forallb _ _); cbn [negb]; [|reflexivity].
  rewrite Ht. reflexivity.
Qed.

Lemma stable_sort_equal_keys {A : Type} (key : A -> float) (v : float) (l : list A) :
  (v <? v)%float = false ->
  Forall (fun a => key a = v) l ->
  stable_sort key l = l.
Proof.
  intros Hv. induction 1 as [|x l Hx Hl IH]; [reflexivity|].
  cbn [stable_sort]. rewrite IH.
  destruct Hl as [|y l Hy Hl]; [reflexivity|].
  cbn [insert_stable]. rewrite Hx, Hy, Hv. reflexivity.
Qed.

Lemma sorted_equal_keys {A : Type} (key : A -> float) (v : float) (rev_flag : bool)
    (l : list A) :
  (v <? v)%float = false ->
  Forall (fun a => key a = v) l ->
  sorted key rev_flag l = l.
Proof.
  intros Hv Hl. unfold sorted. destruct rev_flag.
  - rewrite (stable_sort_equal_keys key v) by (try apply Forall_reverse; assumption).
    apply reverse_involutive.
  - apply (stable_sort_equal_keys key v); assumption.
Qed.

(** X13. A loose search is a plain filter. With a threshold above 0 and at
    most 0.5, [search] on a query that is not blank returns the files that
    pass the gate, each with the score 1.0, in the order of
    [music_files]. *)
Theorem loose_search_is_a_filter `{Difflib}
    (query : str) (threshold : float) (self : MusicDatabase) :
  (0 <? threshold)%float = true ->
  (threshold <=? 0.5)%float = true ->
  strip query <> [] ->
  fst (search query threshold self)
  = map (fun f => (f, 1%float))
        (filter (fun f => passes_gate query f = true) (music_files self)).
Proof.
  intros Hpos Hhalf Hq. rewrite search_spec. cbn [fst].
  destruct (strip query) eqn:E; [congruence|]. cbn [truthy].
  unfold filter_and_sort, scored.
  assert (Hone : (threshold <=? 1)%float = true).
  { eapply float_leb_trans; [exact Hhalf | reflexivity]. }
  assert (Hzero := float_above_zero_not_below threshold Hpos).
  assert (Hl : filter (fun p : MusicFile * float => (threshold <=? snd p)%float = true)
                 (map (fun f => (f, score query threshold f)) (music_files self))
               = map (fun f => (f, 1%float))
                   (filter (fun f => passes_gate query f = true) (music_files self))).
  { induction (music_files self) as [|f files IH]; [reflexivity|].
    cbn [map]. rewrite !filter_cons. cbn [snd].
    rewrite (score_fast_path query threshold f Hhalf).
    destruct (passes_gate query f).
    - rewrite decide_True by exact Hone. rewrite decide_True by reflexivity.
      cbn [map]. rewrite IH. reflexivity.
    - rewrite decide_False by (rewrite Hzero; discriminate).
      rewrite decide_False by discriminate. exact IH. }
  rewrite Hl. apply (sorted_equal_keys snd 1%float); [reflexivity|].
  apply Forall_forall. intros p Hp.
  apply list_elem_of_fmap in Hp as (f & -> & _). reflexivity.
Qed.

Lemma loose_search_is_a_filter_witness :
  fst (@search sample_difflib (lit "Song") 0.5%float sample_database)
  = [(sample_file, 1%float)].
Proof.
  rewrite (@loose_search_is_a_filter sample_difflib (lit "Song") 0.5%float sample_database).
  - vm_compute. reflexivity.
  - reflexivity.
  - reflexivity.
  - vm_compute. discriminate.
Defined.

Lemma re_sub_punctuation (s : str) :
  re_sub punctuation_pattern (lit " ") s = map unpunctuate s.
Proof.
  unfold re_sub. generalize 0%nat at 1.
  induction s as [|c s IH]; intros pos; [reflexivity|].
  cbn [sub_from run punctuation_pattern map]. unfold unpunctuate at 1.
  destruct (negb (isword c || isspace c)).
  - assert (Hne : (S pos =? pos)%nat = false) by (apply Nat.eqb_neq; lia).
    rewrite Hne. replace (S pos - pos - 1)%nat with 0%nat by lia.
    rewrite IH. reflexivity.
  - rewrite IH. reflexivity.
Qed.

Lemma substring_trans (a b c : str) : substring a b -> substring b c -> substring a c.
Proof.
  intros (p1 & q1 & ->) (p2 & q2 & ->).
  exists (p2 ++ p1), (q1 ++ q2). rewrite <- !app_assoc. reflexivity.
Qed.

Lemma elem_of_rev_1 (x : ascii) (l : str) : x ∈ rev l -> x ∈ l.
Proof. rewrite !list_elem_of_In. apply in_rev. Qed.

(** The pieces of [split] are substrings without whitespace. *)
Lemma split_from_pieces (s : str) :
  forall cur t,
    Forall (fun c => isspace c = false) cur ->
    t ∈ split_from cur s ->
    substring t (rev cur ++ s) /\ Forall (fun c => isspace c = false) t.
Proof.
  induction s as [|c s IH]; intros cur t Hcur Ht; cbn [split_from] in Ht.
  - destruct (truthy cur); [|by apply elem_of_nil in Ht].
    apply list_elem_of_singleton in Ht as ->. split.
    + exists [], []. rewrite !app_nil_r. reflexivity.
    + apply Forall_forall. intros x Hx. rewrite Forall_forall in Hcur.
      apply Hcur, elem_of_rev_1, Hx.
  - destruct (isspace c) eqn:Ec.
    + assert (Hrest : t ∈ split_from [] s ->
                      substring t (rev cur ++ c :: s) /\ Forall (fun c => isspace c = false) t).
      { intros H. destruct (IH [] t (Forall_nil_2 _) H) as [(p & q & Hs) Hall].
        split; [|exact Hall]. cbn [rev app] in Hs.
        exists (rev cur ++ c :: p), q. rewrite Hs, <- app_assoc. reflexivity. }
      destruct (truthy cur); [|auto].
      apply elem_of_cons in Ht as [->|Ht]; [|auto]. split.
      * exists [], (c :: s). reflexivity.
      * apply Forall_forall. intros x Hx. rewrite Forall_forall in Hcur.
        apply Hcur, elem_of_rev_1, Hx.
    + destruct (IH (c :: cur) t (Forall_cons_2 _ _ _ Ec Hcur) Ht) as [Hsub Hall].
      split; [|exact Hall]. cbn [rev] in Hsub. rewrite <- app_assoc in Hsub. exact Hsub.
Qed.

Lemma map_unpunctuate_inv (s t : str) :
  map unpunctuate s = t -> Forall (fun c => isspace c = false) t -> s = t.
Proof.
  revert t. induction s as [|c s IH]; intros t Hm Ht; cbn [map] in Hm; subst t.
  - reflexivity.
  - apply Forall_cons in Ht as [Hc Ht]. f_equal; [|apply IH; [reflexivity | exact Ht]].
    unfold unpunctuate in Hc |- *.
    destruct (negb (isword c || isspace c)); [discriminate Hc | reflexivity].
Qed.

(** Every word of a text occurs in the text. *)
Lemma words_are_substrings (s part : str) : part ∈ word_set s -> substring part s.
Proof.
  unfold word_set. rewrite elem_of_list_to_set, re_sub_punctuation. intros Hin.
  destruct (split_from_pieces _ [] part (Forall_nil_2 _) Hin) as [(p & q & Hs) Hall].
  cbn [rev app] in Hs.
  change (map unpunctuate s) with (unpunctuate <$> s) in Hs.
  apply fmap_app_inv in Hs as (s1 & s23 & -> & Hs & ->).
  symmetry in Hs. apply fmap_app_inv in Hs as (s2 & s3 & Hpart & -> & ->).
  symmetry in Hpart. apply map_unpunctuate_inv in Hpart; [|exact Hall].
  subst s2. exists s1, s3. reflexivity.
Qed.

Lemma own_fields_in_text (f : MusicFile) :
  substring (lower (filename f)) (match_text f) /\
  substring (lower (artist f)) (match_text f) /\
  substring (lower (song f)) (match_text f).
Proof.
  unfold match_text. split_and!.
  - exists [], (lit " " ++ lower (artist f) ++ lit " " ++ lower (song f)). reflexivity.
  - exists (lower (filename f) ++ lit " "), (lit " " ++ lower (song f)).
    rewrite <- !app_assoc. reflexivity.
  - exists (lower (filename f) ++ lit " " ++ lower (artist f) ++ lit " "), [].
    rewrite app_nil_r, <- !app_assoc. reflexivity.
Qed.

Lemma substring_passes_gate (query : str) (f : MusicFile) :
  word_set (lower query) <> ∅ ->
  substring (lower query) (match_text f) ->
  passes_gate query f = true.
Proof.
  intros Hne Hsub. unfold passes_gate.
  rewrite bool_decide_eq_true_2 by exact Hne. cbn [andb].
  apply parts_all_present. intros part Hpart.
  eapply substring_trans; [apply words_are_substrings, Hpart | exact Hsub].
Qed.

(** X14. A file is found by what it is called. When the query, lower-cased,
    occurs in the text of a file (as its own file name, artist and song
    do) and has at least one word, a search with a threshold above 0 and at
    most 0.5 returns that file, with the score 1.0. *)
Theorem file_found_by_its_own_text `{Difflib}
    (query : str) (threshold : float) (f : MusicFile) (self : MusicDatabase) :
  f ∈ music_files self ->
  (0 <? threshold)%float = true ->
  (threshold <=? 0.5)%float = true ->
  word_set (lower query) <> ∅ ->
  query = filename f \/ query = artist f \/ query = song f \/
    substring (lower query) (match_text f) ->
  (f, 1%float) ∈ fst (search query threshold self).
Proof.
  intros Hf Hpos Hhalf Hwords Hq.
  assert (Hsub : substring (lower query) (match_text f)).
  { destruct (own_fields_in_text f) as (H1 & H2 & H3).
    destruct Hq as [->|[->|[->|?]]]; assumption. }
  assert (Hstrip : truthy (strip query) = true).
  { destruct (strip query) eqn:E; [|reflexivity].
    exfalso. apply Hwords. apply blank_query_no_words, E. }
  rewrite search_spec, Hstrip. cbn [fst]. unfold filter_and_sort.
  rewrite (sorted_Permutation snd true). unfold scored.
  apply list_elem_of_filter. split.
  - cbn [snd]. eapply float_leb_trans; [exact Hhalf | reflexivity].
  - apply list_elem_of_fmap. exists f. split; [|exact Hf].
    rewrite (score_fast_path query threshold f Hhalf).
    rewrite (substring_passes_gate query f Hwords Hsub). reflexivity.
Qed.

Lemma file_found_by_its_own_text_witness :
  (sample_file, 1%float)
  ∈ fst (@search sample_difflib (filename sample_file) 0.5%float sample_database).
Proof.
  apply (@file_found_by_its_own_text sample_difflib).
  - apply list_elem_of_singleton. reflexivity.
  - reflexivity.
  - reflexivity.
  - intros Hc. apply (f_equal elements) in Hc. vm_compute in Hc. discriminate.
  - left. reflexivity.
Defined.

(** ** The backtracking search, in closed form *)

Section Quantifiers.
Context {R : Type}.
Variable cls : ascii -> bool.
Variable k : nat -> str -> captures -> option R.

(** A greedy quantifier whose continuation succeeds after the whole run
    takes the whole run. *)
Lemma greedy_at_max (s : str) :
  forall pos cs r,
    k (pos + run_length cls s) (drop (run_length cls s) s) cs = Some r ->
    greedy cls k pos s cs = Some r.
Proof.
  induction s as [|c s IH]; intros pos cs r; cbn [run_length greedy].
  - rewrite Nat.add_0_r. trivial.
  - destruct (cls c).
    + cbn [drop]. rewrite Nat.add_succ_r. intros H.
      rewrite (IH (S pos) cs r H). reflexivity.
    + rewrite Nat.add_0_r. trivial.
Qed.

(** It fails when the continuation fails after every part of the run. *)
Lemma greedy_fails (s : str) :
  forall pos cs,
    (forall i, (i <= run_length cls s)%nat -> k (pos + i) (drop i s) cs = None) ->
    greedy cls k pos s cs = None.
Proof.
  induction s as [|c s IH]; intros pos cs H; cbn [run_length greedy] in *.
  - specialize (H 0%nat (Nat.le_0_l _)). rewrite Nat.add_0_r in H. exact H.
  - assert (H0 := H 0%nat (Nat.le_0_l _)). rewrite Nat.add_0_r in H0. cbn [drop] in H0.
    destruct (cls c); [|exact H0].
    rewrite IH; [exact H0|].
    intros i Hi. specialize (H (S i)). cbn [drop] in H.
    rewrite Nat.add_succ_r in H. apply H. lia.
Qed.

(** A lazy quantifier stops at the first place where the continuation
    succeeds. *)
Lemma lazy_first (n : nat) :
  forall s pos cs r,
    (n <= length s)%nat ->
    Forall (fun c => cls c = true) (take n s) ->
    (forall j, (j < n)%nat -> k (pos + j) (drop j s) cs = None) ->
    k (pos + n) (drop n s) cs = Some r ->
    lazy cls k pos s cs = Some r.
Proof.
  induction n as [|n IH]; intros s pos cs r Hlen Hall Hnone Hk.
  - rewrite Nat.add_0_r in Hk.
    destruct s; cbn [drop] in Hk; cbn [lazy]; rewrite Hk; reflexivity.
  - destruct s as [|c s]; [cbn in Hlen; lia|].
    cbn [lazy]. assert (H0 := Hnone 0%nat (Nat.lt_0_succ _)).
    rewrite Nat.add_0_r in H0. cbn [drop] in H0. rewrite H0.
    cbn [take] in Hall. apply Forall_cons in Hall as [Hc Hall]. rewrite Hc.
    apply IH.
    + cbn in Hlen. lia.
    + exact Hall.
    + intros j Hj. specialize (Hnone (S j)). cbn [drop] in Hnone.
      rewrite Nat.add_succ_r in Hnone. apply Hnone. lia.
    + cbn [drop] in Hk. rewrite Nat.add_succ_r in Hk. exact Hk.
Qed.
End Quantifiers.

Lemma run_length_le (cls : ascii -> bool) (s : str) : (run_length cls s <= length s)%nat.
Proof. induction s as [|c s IH]; cbn; [lia|]. destruct (cls c); lia. Qed.

Lemma run_length_all (cls : ascii -> bool) (s : str) :
  Forall (fun c => cls c = true) (take (run_length cls s) s).
Proof.
  induction s as [|c s IH]; cbn [run_length]; [constructor|].
  destruct (cls c) eqn:E; [|constructor]. cbn [take]. constructor; assumption.
Qed.

(** A character outside the class bounds the run. *)
Lemma run_length_bound (cls : ascii -> bool) (s : str) (i : nat) (c : ascii) :
  s !! i = Some c -> cls c = false -> (run_length cls s <= i)%nat.
Proof.
  revert i. induction s as [|a s IH]; intros i Hi Hc; [discriminate|].
  cbn [run_length]. destruct i as [|i]; cbn in Hi.
  - injection Hi as ->. rewrite Hc. lia.
  - destruct (cls a); [|lia]. specialize (IH i Hi Hc). lia.
Qed.

Lemma run_length_app_stop (cls : ascii -> bool) (s1 s2 : str) :
  Forall (fun c => cls c = true) s1 ->
  run_length cls s2 = 0%nat ->
  run_length cls (s1 ++ s2) = length s1.
Proof.
  induction 1 as [|c s Hc Hs IH]; intros H2; cbn [app run_length length].
  - exact H2.
  - rewrite Hc, IH by exact H2. reflexivity.
Qed.

(** Skipping inside [re.sub]. *)
Lemma sub_from_skip (pattern : regex) (repl : str) (skip : nat) :
  forall pos s,
    (skip <= length s)%nat ->
    sub_from pattern repl pos skip s = sub_from pattern repl (pos + skip) 0 (drop skip s).
Proof.
  induction skip as [|n IH]; intros pos s Hlen.
  - rewrite Nat.add_0_r. reflexivity.
  - destruct s as [|c s]; [cbn in Hlen; lia|].
    cbn [sub_from drop]. rewrite IH by (cbn in Hlen; lia).
    rewrite Nat.add_succ_r. reflexivity.
Qed.

(** Past the beginning of the string the track pattern matches nowhere. *)
Lemma sub_from_track_pattern_later (s : str) :
  forall pos, pos <> 0%nat -> sub_from track_pattern [] pos 0 s = s.
Proof.
  induction s as [|c s IH]; intros pos Hpos.
  - cbn [sub_from run track_pattern].
    destruct pos; [congruence | reflexivity].
  - cbn [sub_from run track_pattern].
    destruct pos as [|pos]; [congruence|]. cbn [Nat.eqb].
    rewrite IH by lia. reflexivity.
Qed.

Lemma int_app_digit (s : str) (c : ascii) :
  int (s ++ [c]) = 10 * int s + (Z.of_N (ord c) - 48).
Proof. unfold int. rewrite fold_left_app. reflexivity. Qed.

Lemma int_digits_nonneg (s : str) :
  Forall (fun c => isdecimal c = true) s -> 0 <= int s.
Proof.
  induction s as [|c s IH] using rev_ind; intros Hall; [cbn; lia|].
  apply Forall_app in Hall as [Hs Hc]. apply Forall_cons in Hc as [Hc _].
  rewrite int_app_digit. specialize (IH Hs).
  unfold isdecimal in Hc. apply andb_true_iff in Hc as [Hlo _].
  apply N.leb_le in Hlo. lia.
Qed.

(** The match of the track pattern on a name that begins with a digit: it
    ends after the digits and the separators, and group 1 is the digits. *)
Lemma track_pattern_match (name : str) (c : ascii) (rest : str) :
  name = c :: rest -> isdecimal c = true ->
  let n := run_length isdecimal name in
  let m := run_length track_separator (drop n name) in
  exists mt, re_match track_pattern name = Some mt /\
             m_end mt = (n + m)%nat /\ group mt 1 = take n name.
Proof.
  intros -> Hc n m. subst n m. cbn [run_length]. rewrite Hc. cbn [drop].
  unfold re_match. cbn [run track_pattern Nat.eqb]. rewrite Hc.
  erewrite (greedy_at_max isdecimal).
  2:{ cbv beta. apply (greedy_at_max track_separator). reflexivity. }
  eexists. split; [reflexivity|]. cbn [m_end]. split; [lia|].
  unfold group. cbn [m_groups m_string].
  unfold close_group, open_group, no_captures. cbn [started spans].
  rewrite lookup_insert_eq. cbn [spans]. rewrite lookup_insert_eq.
  cbn [drop]. rewrite Nat.sub_0_r. reflexivity.
Qed.

Lemma extract_track_spec (name : str) :
  extract_track name
  = match name with
    | c :: _ =>
        if isdecimal c
        then let n := run_length isdecimal name in
             (Some (int (take n name)),
              drop (n + run_length track_separator (drop n name)) name)
        else (None, name)
    | [] => (None, name)
    end.
Proof.
  unfold extract_track.
  destruct name as [|c rest]; [reflexivity|].
  destruct (isdecimal c) eqn:Hc.
  2:{ unfold re_match. cbn [run track_pattern Nat.eqb]. rewrite Hc. reflexivity. }
  destruct (track_pattern_match (c :: rest) c rest eq_refl Hc) as (mt & Hm & He & Hg).
  rewrite Hm, Hg. cbv zeta. f_equal.
  unfold re_sub. unfold re_match in Hm.
  cbn [sub_from].
  destruct (run track_pattern 0 (c :: rest) no_captures) as [[e cs]|]; [|discriminate].
  injection Hm as <-. cbn [m_end] in He. subst e.
  set (n := run_length isdecimal (c :: rest)) in *.
  set (m := run_length track_separator (drop n (c :: rest))) in *.
  assert (Hn : (1 <= n)%nat) by (subst n; cbn [run_length]; rewrite Hc; lia).
  assert (Hnm : (n + m <= length (c :: rest))%nat).
  { subst m. pose proof (run_length_le track_separator (drop n (c :: rest))) as H.
    rewrite length_drop in H. pose proof (run_length_le isdecimal (c :: rest)). fold n in H0. lia. }
  destruct (n + m =? 0)%nat eqn:E; [apply Nat.eqb_eq in E; lia|].
  cbn [app]. rewrite sub_from_skip by (cbn [length] in Hnm; lia).
  rewrite sub_from_track_pattern_later by lia.
  replace (n + m)%nat with (S (n + m - 0 - 1)) at 2 by lia. reflexivity.
Qed.

(** X15. The track number is the leading run of digits. With [n] the number
    of decimal digits the stem begins with: when [n] is 0 the parser leaves
    [track_num] alone and tries the patterns on the whole stem; otherwise
    [track_num] becomes the value of these [n] digits, which is not
    negative, and the patterns are tried on the stem without the digits and
    without the whitespace, underscores and hyphens that follow them. *)
Theorem track_number_is_leading_digits (self : MusicFile) :
  let p := _parse_filename self in
  let name := stem self in
  let n := run_length isdecimal name in
  (n = 0%nat /\ track_num p = track_num self /\ detracked_stem self = name) \/
  (n <> 0%nat /\
   track_num p = Some (int (take n name)) /\
   0 <= int (take n name) /\
   detracked_stem self
   = drop (n + run_length track_separator (drop n name)) name).
Proof.
  cbv zeta.
  destruct (parse_filename_frame self) as (_ & _ & _ & _ & _ & Htrack).
  rewrite Htrack. unfold detracked_stem. rewrite extract_track_spec.
  destruct (stem self) as [|c rest] eqn:Es; [left; done|].
  cbn [run_length]. destruct (isdecimal c) eqn:Hc; [|left; done].
  right. cbv zeta. cbn [fst snd run_length].
  split_and!; [lia | reflexivity | | reflexivity].
  apply int_digits_nonneg.
  pose proof (run_length_all isdecimal (c :: rest)) as Hall.
  cbn [run_length] in Hall. rewrite Hc in Hall. exact Hall.
Qed.

(** ** The hyphen pattern splits at the first hyphen *)

Lemma lstrip_drop (s : str) : lstrip s = drop (run_length isspace s) s.
Proof.
  induction s as [|c s IH]; [reflexivity|].
  cbn [lstrip run_length]. destruct (isspace c); [exact IH | reflexivity].
Qed.

Lemma lstrip_no_space_first (s : str) : run_length isspace (lstrip s) = 0%nat.
Proof.
  induction s as [|c s IH]; [reflexivity|].
  cbn [lstrip]. destruct (isspace c) eqn:E; [exact IH|].
  cbn [run_length]. rewrite E. reflexivity.
Qed.

(** A string is the spaces it begins with, then its [lstrip]. *)
Lemma lstrip_parts (s : str) :
  exists sp, s = sp ++ lstrip s /\ Forall (fun c => isspace c = true) sp.
Proof.
  exists (take (run_length isspace s) s). split.
  - rewrite lstrip_drop. symmetry. apply take_drop.
  - apply run_length_all.
Qed.

(** A string is its [rstrip], then the spaces it ends with. *)
Lemma rstrip_parts (s : str) :
  exists sp, s = rstrip s ++ sp /\ Forall (fun c => isspace c = true) sp.
Proof.
  destruct (lstrip_parts (rev s)) as (sp & Hs & Hsp).
  exists (rev sp). split.
  - unfold rstrip. rewrite <- rev_app_distr, <- Hs, rev_involutive. reflexivity.
  - apply Forall_forall. intros c Hc. rewrite Forall_forall in Hsp.
    apply Hsp, elem_of_rev_1. exact Hc.
Qed.

Lemma lstrip_spaces (sp s : str) :
  Forall (fun c => isspace c = true) sp -> lstrip (sp ++ s) = lstrip s.
Proof.
  induction 1 as [|c sp Hc _ IH]; [reflexivity|].
  cbn [app lstrip]. rewrite Hc. exact IH.
Qed.

Lemma lstrip_idemp (s : str) : lstrip (lstrip s) = lstrip s.
Proof.
  rewrite (lstrip_drop (lstrip s)), lstrip_no_space_first. reflexivity.
Qed.

Lemma rstrip_spaces (s sp : str) :
  Forall (fun c => isspace c = true) sp -> rstrip (s ++ sp) = rstrip s.
Proof.
  intros Hsp. unfold rstrip. rewrite rev_app_distr, lstrip_spaces; [reflexivity|].
  apply Forall_forall. intros c Hc. rewrite Forall_forall in Hsp.
  apply Hsp, elem_of_rev_1, Hc.
Qed.

Lemma rstrip_idemp (s : str) : rstrip (rstrip s) = rstrip s.
Proof. unfold rstrip. rewrite rev_involutive, lstrip_idemp. reflexivity. Qed.

(** [lstrip] of a string with something left of it after [lstrip] keeps
    what follows. *)
Lemma lstrip_app_keep (s t : str) : lstrip s <> [] -> lstrip (s ++ t) = lstrip s ++ t.
Proof.
  induction s as [|c s IH]; cbn [lstrip app]; [congruence|].
  destruct (isspace c); [exact IH | reflexivity].
Qed.

Lemma lstrip_all_spaces (s : str) :
  lstrip s = [] -> Forall (fun c => isspace c = true) s.
Proof. intros H. eapply Forall_impl; [apply lstrip_nil_spaces, H | auto]. Qed.

Lemma lstrip_of_spaces (s : str) :
  Forall (fun c => isspace c = true) s -> lstrip s = [].
Proof.
  induction 1 as [|c s Hc _ IH]; [reflexivity|].
  cbn [lstrip]. rewrite Hc. exact IH.
Qed.

Lemma strip_lstrip (s : str) : strip (lstrip s) = strip s.
Proof. unfold strip. rewrite lstrip_idemp. reflexivity. Qed.

Lemma strip_rstrip (s : str) : strip s <> [] -> strip (rstrip s) = strip s.
Proof.
  intros Hne. destruct (rstrip_parts s) as (sp & Hs & Hsp).
  unfold strip in *.
  assert (Hl : lstrip (rstrip s) <> []).
  { intros Hnil. apply Hne.
    assert (Hall : Forall (fun c => isspace c = true) s).
    { rewrite Hs. apply Forall_app. split; [apply lstrip_all_spaces, Hnil | exact Hsp]. }
    rewrite (lstrip_of_spaces s Hall). reflexivity. }
  rewrite Hs at 2. rewrite (lstrip_app_keep _ sp Hl), rstrip_spaces by exact Hsp.
  reflexivity.
Qed.

Lemma strip_idemp (s : str) : strip (strip s) = strip s.
Proof.
  destruct (strip s) eqn:E; [reflexivity|]. rewrite <- E.
  unfold strip at 2. set (t := lstrip s).
  assert (Ht : strip t = strip s) by apply strip_lstrip.
  rewrite <- Ht. apply strip_rstrip. rewrite Ht, E. discriminate.
Qed.

Lemma dot_not_newline (s : str) :
  "010"%char ∉ s -> Forall (fun c => dot c = true) s.
Proof.
  intros H. apply Forall_forall. intros c Hc. unfold dot.
  destruct (chr_eqb c "010") eqn:E; [|reflexivity].
  apply chr_eqb_eq in E. subst c. contradiction.
Qed.

Lemma at_end_dots (s : str) :
  Forall (fun c => dot c = true) s -> s <> [] -> at_end s = false.
Proof.
  intros Hall Hne. destruct s as [|c s]; [congruence|].
  apply Forall_cons in Hall as [Hc _]. cbn [at_end].
  destruct s; [|reflexivity]. unfold dot in Hc.
  destruct (chr_eqb c "010"); [discriminate | reflexivity].
Qed.

(** The end of the hyphen pattern, [(.*?)$], on a text without newline. *)
Lemma hyphen_tail_match (a0 : str) (pos : nat) (cs : captures) :
  Forall (fun c => dot c = true) a0 ->
  run [Open 2; Chr dot Lazy0; Close 2; Eol] pos a0 cs
  = Some ((pos + length a0)%nat,
          close_group 2 (pos + length a0) (open_group 2 pos cs)).
Proof.
  intros Hdot. cbn [run].
  apply (lazy_first dot _ (length a0)).
  - lia.
  - rewrite firstn_all. exact Hdot.
  - intros j Hj. rewrite at_end_dots; [reflexivity | |].
    + apply Forall_forall. intros c Hc. rewrite Forall_forall in Hdot.
      apply Hdot. eapply subseteq_drop, Hc.
    + intros Hnil. apply (f_equal (@length ascii)) in Hnil.
      rewrite length_drop in Hnil. cbn in Hnil. lia.
  - rewrite drop_all. reflexivity.
Qed.

(** The hyphen pattern from its [\s*-\s*] on, at the spaces before the
    hyphen. *)
Lemma hyphen_middle_match (sp1 sp2 a0 : str) (pos : nat) (cs : captures) :
  Forall (fun c => isspace c = true) sp1 ->
  Forall (fun c => isspace c = true) sp2 ->
  run_length isspace a0 = 0%nat ->
  Forall (fun c => dot c = true) a0 ->
  let p2 := (pos + length sp1 + 1 + length sp2)%nat in
  run [Close 1; Chr isspace Greedy0; Chr (is_char "-") Once; Chr isspace Greedy0;
       Open 2; Chr dot Lazy0; Close 2; Eol] pos (sp1 ++ "-"%char :: sp2 ++ a0) cs
  = Some ((p2 + length a0)%nat,
          close_group 2 (p2 + length a0) (open_group 2 p2 (close_group 1 pos cs))).
Proof.
  intros Hsp1 Hsp2 Ha0 Hdot p2.
  change (run (Close 1 :: Chr isspace Greedy0 :: ?r) pos ?s cs)
    with (greedy isspace (run r) pos s (close_group 1 pos cs)).
  apply greedy_at_max.
  rewrite (run_length_app_stop isspace sp1) by (exact Hsp1 || reflexivity).
  rewrite drop_app_length.
  change (run (Chr (is_char "-") Once :: Chr isspace Greedy0 :: ?r) ?p ("-"%char :: ?s) ?c)
    with (greedy isspace (run r) (S p) s c).
  apply greedy_at_max.
  rewrite (run_length_app_stop isspace sp2) by assumption.
  rewrite drop_app_length.
  rewrite hyphen_tail_match by exact Hdot.
  subst p2. repeat f_equal; lia.
Qed.

(** Before the end of a hyphen-free beginning that does not end with a
    space, the rest of the hyphen pattern matches nowhere. *)
Lemma hyphen_no_earlier_match (b0 rest : str) (r : regex) (j : nat) (cs : captures) :
  "-"%char ∉ b0 ->
  run_length isspace (rev b0) = 0%nat ->
  (j < length b0)%nat ->
  run (Close 1 :: Chr isspace Greedy0 :: Chr (is_char "-") Once :: r)
      j (drop j (b0 ++ rest)) cs = None.
Proof.
  intros Hhyp Hlast Hj.
  change (run (Close 1 :: Chr isspace Greedy0 :: ?r') j ?s cs)
    with (greedy isspace (run r') j s (close_group 1 j cs)).
  apply greedy_fails. intros i Hi.
  assert (Hc : exists c, b0 !! (length b0 - 1)%nat = Some c /\ isspace c = false).
  { destruct (rev b0) as [|c t] eqn:E.
    - apply (f_equal (@length ascii)) in E. rewrite length_rev in E. cbn in E. lia.
    - exists c. cbn [run_length] in Hlast. split.
      + assert (Hb : b0 = rev t ++ [c]).
        { apply (f_equal (@rev ascii)) in E. rewrite rev_involutive in E. exact E. }
        rewrite Hb.
        replace (length (rev t ++ [c]) - 1)%nat with (length (rev t))
          by (rewrite length_app; cbn [length]; lia).
        apply list_lookup_middle. reflexivity.
      + destruct (isspace c); [discriminate | reflexivity]. }
  destruct Hc as (c & Hlook & Hc).
  assert (Hbound : (run_length isspace (drop j (b0 ++ rest)) <= length b0 - 1 - j)%nat).
  { apply (run_length_bound isspace _ _ c); [|exact Hc].
    rewrite (lookup_drop (b0 ++ rest) j).
    replace (j + (length b0 - 1 - j))%nat with (length b0 - 1)%nat by lia.
    rewrite (lookup_app_l b0 rest) by lia. exact Hlook. }
  rewrite drop_drop.
  assert (Hin : (j + i < length b0)%nat) by lia.
  destruct (lookup_lt_is_Some_2 b0 (j + i) Hin) as [d Hd].
  assert (Hd' : (b0 ++ rest) !! (j + i)%nat = Some d)
    by (rewrite (lookup_app_l b0 rest) by lia; exact Hd).
  rewrite (drop_S _ _ _ Hd'). cbn [run]. unfold is_char.
  destruct (chr_eqb d "-") eqn:E; [|reflexivity].
  apply chr_eqb_eq in E. subst d. exfalso. apply Hhyp.
  eapply list_elem_of_lookup_2, Hd.
Qed.

(** The match of the hyphen pattern: group 1 is what stands before the
    first hyphen without the spaces at its end, group 2 what stands after
    it without the spaces at its beginning. *)
Lemma hyphen_pattern_match (b0 sp1 sp2 a0 : str) :
  "-"%char ∉ b0 ->
  run_length isspace (rev b0) = 0%nat ->
  Forall (fun c => dot c = true) b0 ->
  Forall (fun c => isspace c = true) sp1 ->
  Forall (fun c => isspace c = true) sp2 ->
  run_length isspace a0 = 0%nat ->
  Forall (fun c => dot c = true) a0 ->
  exists mt, re_match hyphen_pattern (b0 ++ sp1 ++ "-"%char :: sp2 ++ a0) = Some mt /\
             group mt 1 = b0 /\ group mt 2 = a0.
Proof.
  intros Hhyp Hlast Hdb Hsp1 Hsp2 Ha0 Hda.
  set (name := b0 ++ sp1 ++ "-"%char :: sp2 ++ a0).
  unfold re_match.
  change (run hyphen_pattern 0 name no_captures)
    with (lazy dot
            (run [Close 1; Chr isspace Greedy0; Chr (is_char "-") Once;
                  Chr isspace Greedy0; Open 2; Chr dot Lazy0; Close 2; Eol])
            0 name (open_group 1 0 no_captures)).
  pose proof (hyphen_middle_match sp1 sp2 a0 (0 + length b0)
                (open_group 1 0 no_captures) Hsp1 Hsp2 Ha0 Hda) as Hmid.
  cbv zeta in Hmid.
  match type of Hmid with
  | _ = Some ?r =>
      rewrite (lazy_first dot _ (length b0) name 0 (open_group 1 0 no_captures) r)
  end.
  - eexists. split; [reflexivity|].
    unfold group. cbn [m_groups m_string].
    unfold close_group, open_group, no_captures. cbn [started spans].
    rewrite lookup_insert_eq. cbn [started spans].
    rewrite lookup_insert_eq. cbn [started spans].
    rewrite lookup_insert_ne by lia. rewrite lookup_insert_eq.
    rewrite lookup_insert_eq.
    split.
    + rewrite Nat.sub_0_r. cbn [drop]. subst name. apply take_app_length.
    + subst name.
      replace (0 + length b0 + length sp1 + 1 + length sp2 + length a0
               - (0 + length b0 + length sp1 + 1 + length sp2))%nat
        with (length a0) by lia.
      replace (b0 ++ sp1 ++ "-"%char :: sp2 ++ a0)
        with ((b0 ++ sp1 ++ "-"%char :: sp2) ++ a0)
        by (rewrite <- !app_assoc; reflexivity).
      rewrite drop_app_length'.
      * apply firstn_all.
      * rewrite !length_app. cbn [length]. rewrite ?length_app. lia.
  - subst name. rewrite length_app. lia.
  - subst name. rewrite take_app_length. exact Hdb.
  - intros j Hj. cbn [Nat.add]. subst name.
    apply hyphen_no_earlier_match; assumption.
  - subst name. rewrite drop_app_length. exact Hmid.
Qed.

Lemma not_elem_of_rstrip (c : ascii) (s : str) : c ∉ s -> c ∉ rstrip s.
Proof.
  intros H Hin. apply H. destruct (rstrip_parts s) as (sp & Hs & _).
  rewrite Hs. apply elem_of_app. left. exact Hin.
Qed.

Lemma not_elem_of_lstrip (c : ascii) (s : str) : c ∉ s -> c ∉ lstrip s.
Proof.
  intros H Hin. apply H. destruct (lstrip_parts s) as (sp & Hs & _).
  rewrite Hs. apply elem_of_app. right. exact Hin.
Qed.

(** On a name without newline, the hyphen pattern matches at the first
    hyphen, and its groups, trimmed, are the two sides trimmed. *)
Lemma hyphen_pattern_first_hyphen (before after : str) :
  "-"%char ∉ before ->
  "010"%char ∉ before ++ "-"%char :: after ->
  strip before <> [] ->
  exists mt, re_match hyphen_pattern (before ++ "-"%char :: after) = Some mt /\
             strip (group mt 1) = strip before /\ strip (group mt 2) = strip after.
Proof.
  intros Hhyp Hnl Hb.
  destruct (rstrip_parts before) as (sp1 & Hbefore & Hsp1).
  destruct (lstrip_parts after) as (sp2 & Hafter & Hsp2).
  assert (Hnlb : "010"%char ∉ before).
  { intros H. apply Hnl. apply elem_of_app. left. exact H. }
  assert (Hnla : "010"%char ∉ after).
  { intros H. apply Hnl. apply elem_of_app. right. apply elem_of_cons. right. exact H. }
  destruct (hyphen_pattern_match (rstrip before) sp1 sp2 (lstrip after))
    as (mt & Hm & Hg1 & Hg2).
  - apply not_elem_of_rstrip, Hhyp.
  - unfold rstrip. rewrite rev_involutive. apply lstrip_no_space_first.
  - apply dot_not_newline, not_elem_of_rstrip, Hnlb.
  - exact Hsp1.
  - exact Hsp2.
  - apply lstrip_no_space_first.
  - apply dot_not_newline, not_elem_of_lstrip, Hnla.
  - exists mt. split_and!.
    + rewrite <- Hm. f_equal. rewrite Hbefore at 1. rewrite Hafter at 1.
      rewrite <- app_assoc. reflexivity.
    + rewrite Hg1. apply strip_rstrip, Hb.
    + rewrite Hg2. apply strip_lstrip.
Qed.

(** X16. The parser splits at the first hyphen. When the name the patterns
    are tried on (the stem without its track number) has no newline and
    reads [before], a hyphen, [after], with no hyphen in [before] and
    something other than whitespace on both sides, the artist is [before]
    trimmed and the song is [after] trimmed, further hyphens included. *)
Theorem parser_splits_at_first_hyphen (self : MusicFile) (before after : str) :
  detracked_stem self = before ++ "-"%char :: after ->
  "-"%char ∉ before ->
  "010"%char ∉ detracked_stem self ->
  strip before <> [] ->
  strip after <> [] ->
  artist (_parse_filename self) = strip before /\
  song (_parse_filename self) = strip after.
Proof.
  unfold detracked_stem, _parse_filename.
  destruct (extract_track (stem self)) as [num name]. cbn [snd].
  intros -> Hhyp Hnl Hb Ha.
  destruct (hyphen_pattern_first_hyphen before after Hhyp Hnl Hb) as (mt & Hm & Hg1 & Hg2).
  cbn [try_artist_first artist_first_patterns]. rewrite Hm.
  cbn [set_artist set_song artist song]. rewrite Hg1, Hg2.
  destruct (strip before) eqn:Eb; [congruence|].
  destruct (strip after) eqn:Ea; [congruence|].
  cbn [truthy andb]. split; reflexivity.
Qed.

Lemma parser_splits_at_first_hyphen_witness :
  artist (_parse_filename (new_MusicFile (lit "/music/07_AC DC  -  T-N-T (live).mp3") 0))
  = lit "AC DC" /\
  song (_parse_filename (new_MusicFile (lit "/music/07_AC DC  -  T-N-T (live).mp3") 0))
  = lit "T-N-T (live)".
Proof.
  apply (parser_splits_at_first_hyphen _ (lit "AC DC  ") (lit "  T-N-T (live)")).
  - vm_compute. reflexivity.
  - vm_compute. intros H. repeat (apply elem_of_cons in H as [H|H]; [discriminate|]).
    by apply elem_of_nil in H.
  - vm_compute. intros H. repeat (apply elem_of_cons in H as [H|H]; [discriminate|]).
    by apply elem_of_nil in H.
  - vm_compute. discriminate.
  - vm_compute. discriminate.
Defined.

Lemma try_artist_first_trimmed (ps : list regex) (name : str) :
  forall s s1 r,
    strip (artist s) = artist s /\ strip (song s) = song s ->
    try_artist_first ps name s = (s1, r) ->
    strip (artist s1) = artist s1 /\ strip (song s1) = song s1.
Proof.
  induction ps as [|q ps IH]; intros s s1 r Hs E; cbn [try_artist_first] in E.
  - injection E as <- _. exact Hs.
  - destruct (re_match q name) as [m|]; [|eauto].
    cbn [set_artist set_song artist song] in E.
    destruct (_ && _).
    + injection E as <- _. cbn. split; apply strip_idemp.
    + eapply IH; [|exact E]. cbn. split; apply strip_idemp.
Qed.

Lemma try_song_first_trimmed (ps : list regex) (name : str) :
  forall s s1 r,
    strip (artist s) = artist s /\ strip (song s) = song s ->
    try_song_first ps name s = (s1, r) ->
    strip (artist s1) = artist s1 /\ strip (song s1) = song s1.
Proof.
  induction ps as [|q ps IH]; intros s s1 r Hs E; cbn [try_song_first] in E.
  - injection E as <- _. exact Hs.
  - destruct (re_match q name) as [m|]; [|eauto].
    cbn [set_artist set_song artist song] in E.
    destruct (_ && _).
    + injection E as <- _. cbn. split; apply strip_idemp.
    + eapply IH; [|exact E]. cbn. split; apply strip_idemp.
Qed.

(** X17. What the parser stores is trimmed. For an object fresh from
    [__init__], the artist after parsing has no whitespace at either end,
    and neither has the song, unless no pattern gave anything and the song
    is the whole name left after the track number, stored as it is. *)
Theorem parsed_fields_are_trimmed (path : str) (sz : Z) :
  let self := new_MusicFile path sz in
  let p := _parse_filename self in
  strip (artist p) = artist p /\
  (strip (song p) = song p \/ (artist p = [] /\ song p = detracked_stem self)).
Proof.
  cbv zeta. unfold detracked_stem, _parse_filename.
  destruct (extract_track (stem (new_MusicFile path sz))) as [num name]. cbn [snd].
  set (s0 := match num with
             | Some n => set_track_num (Some n) (new_MusicFile path sz)
             | None => new_MusicFile path sz
             end).
  assert (Hs0 : strip (artist s0) = artist s0 /\ strip (song s0) = song s0)
    by (subst s0; destruct num; split; reflexivity).
  destruct (try_artist_first artist_first_patterns name s0) as [s1 r1] eqn:E1.
  pose proof (try_artist_first_trimmed _ _ _ _ _ Hs0 E1) as Hs1.
  destruct r1; [destruct Hs1; auto|].
  destruct (try_song_first song_first_patterns name s1) as [s2 r2] eqn:E2.
  pose proof (try_song_first_trimmed _ _ _ _ _ Hs1 E2) as Hs2.
  destruct r2; [destruct Hs2; auto|].
  unfold whole_name_fallback. destruct Hs2 as [Ha Hb].
  destruct (negb (truthy (artist s2)) && negb (truthy (song s2))) eqn:Eg.
  - apply andb_prop in Eg as [Eg _].
    destruct (artist s2) eqn:Ea; [|discriminate Eg].
    cbn [set_song artist song]. rewrite Ea. split; [reflexivity|].
    right. split; reflexivity.
  - split; [exact Ha|]. left. exact Hb.
Qed.

(** ** The playlist tab *)

Lemma playlist_entries_clean (lines : list str) :
  Forall (fun entry => truthy entry = true /\ strip entry = entry) (playlist_entries lines).
Proof.
  unfold playlist_entries. apply Forall_fmap, Forall_forall.
  intros line Hin. apply list_elem_of_filter in Hin as [Hline _]. cbn.
  split; [exact Hline | apply strip_idemp].
Qed.

(** X18. A loaded playlist is searched line by line. The entries that
    [load_playlist] keeps are never empty and carry no whitespace at either
    end, and [match_playlist] gives for each of them, in their order,
    exactly what [search] returns for it, whatever the threshold. *)
Theorem loaded_playlist_is_searched_line_by_line `{Difflib}
    (lines : list str) (threshold : float) (self : MusicDatabase) :
  let entries := playlist_entries lines in
  Forall (fun entry => entry <> [] /\ strip entry = entry) entries /\
  fst (match_playlist entries threshold self)
  = map (fun entry => (entry, fst (search entry threshold self))) entries.
Proof.
  cbv zeta. pose proof (playlist_entries_clean lines) as Hclean. split.
  - eapply Forall_impl; [exact Hclean|]. intros e [He Hs]. split; [|exact Hs].
    intros ->. discriminate He.
  - rewrite match_playlist_spec. cbn [fst].
    induction Hclean as [|e l [He Hs] _ IH]; [reflexivity|].
    cbn [map]. rewrite IH. f_equal. rewrite search_spec, Hs, He. reflexivity.
Qed.

(** ** The directory list of the main window *)

Lemma insert_end_rows (l rows : list str) :
  foldl (fun rows directory => rows ++ [directory]) rows l = rows ++ l.
Proof.
  revert rows. induction l as [|x l IH]; intros rows; cbn [foldl].
  - symmetry. apply app_nil_r.
  - rewrite IH, <- app_assoc. reflexivity.
Qed.

Lemma list_remove_delete (l : list str) (index : nat) (x : str) :
  NoDup l -> l !! index = Some x -> list_remove x l = delete index l.
Proof.
  intros Hnd. revert index. induction Hnd as [|y l Hy Hl IH]; intros index Hi.
  - discriminate.
  - destruct index as [|index]; cbn in Hi |- *.
    + injection Hi as ->. rewrite bool_decide_eq_true_2 by reflexivity. reflexivity.
    + rewrite bool_decide_eq_false_2.
      * f_equal. apply IH, Hi.
      * intros ->. apply Hy. eapply list_elem_of_lookup_2, Hi.
Qed.

Lemma App_init_ok (w : World) (stored : list str) (exts : gset str) :
  directory_list_ok w (App__init__ w stored exts) (App__init__ w stored exts).
Proof.
  unfold directory_list_ok, App__init__. cbn [music_db dir_listbox saved_directories].
  rewrite insert_end_rows. cbn [app set_extensions set_file_extensions directories].
  destruct (load_directories_spec w stored MusicDatabase__init__) as (H1 & H2 & _).
  { constructor. }
  split_and!; [reflexivity | exact H1 | | right; done].
  apply Forall_forall. intros d Hd. apply H2 in Hd as [Hd|[_ Hd]]; [|exact Hd].
  by apply elem_of_nil in Hd.
Qed.

Lemma App_add_directory_ok (w : World) (start self : App) (directory : str) :
  directory_list_ok w start self ->
  directory_list_ok w start (App_add_directory w directory self).
Proof.
  intros (Hrows & Hnd & Hdirs & Hsaved). unfold App_add_directory.
  destruct (truthy directory); [|by repeat split].
  destruct (add_directory_cases w directory (music_db self))
    as [(Hd & Hnew & ->)|(_ & ->)].
  - unfold directory_list_ok. cbn [music_db dir_listbox saved_directories
      set_directories directories].
    split_and!.
    + rewrite Hrows. reflexivity.
    + apply NoDup_app. split_and!; [exact Hnd | | apply NoDup_singleton].
      intros x Hx Hx'. apply list_elem_of_singleton in Hx' as ->. auto.
    + apply Forall_app. split; [exact Hdirs|]. constructor; [exact Hd | constructor].
    + left. reflexivity.
  - destruct self. by repeat split.
Qed.

Lemma App_remove_directory_ok (w : World) (start self : App) (selected : list nat) :
  isdir w [] = false ->
  directory_list_ok w start self ->
  directory_list_ok w start (App_remove_directory selected self).
Proof.
  intros Hempty (Hrows & Hnd & Hdirs & Hsaved). unfold App_remove_directory.
  destruct selected as [|index _]; [by repeat split|].
  unfold remove_directory.
  destruct (decide (default [] (dir_listbox self !! index) ∈ directories (music_db self)))
    as [Hin|Hin].
  - rewrite (bool_decide_eq_true_2 _ Hin).
    unfold directory_list_ok. cbn [music_db dir_listbox saved_directories
      set_directories directories].
    destruct (dir_listbox self !! index) as [x|] eqn:Hx; cbn [from_option id] in *.
    + rewrite Hrows in Hx. rewrite (list_remove_delete _ index x Hnd Hx).
      split_and!.
      * rewrite Hrows. reflexivity.
      * rewrite <- (list_remove_delete _ index x Hnd Hx). apply list_remove_NoDup, Hnd.
      * apply Forall_delete, Hdirs.
      * left. reflexivity.
    + exfalso. rewrite Forall_forall in Hdirs. apply Hdirs in Hin. congruence.
  - rewrite (bool_decide_eq_false_2 _ Hin). destruct self. by repeat split.
Qed.

(** X19. The directory list of the main window shows the database. After
    the start and any sequence of additions and removals, the rows of the
    listbox are the directories of the database, in the same order; they
    are distinct directories; and the settings hold the same list, unless
    no addition or removal has succeeded yet, when they still hold what was
    stored and the database holds what the start made of it. The empty path
    is taken not to be a directory. *)
Theorem directory_list_shows_database (w : World) (stored : list str)
    (exts : gset str) (events : list App_event) :
  isdir w [] = false ->
  let start := App__init__ w stored exts in
  let self := foldl (App_handle w) start events in
  dir_listbox self = directories (music_db self) /\
  NoDup (dir_listbox self) /\
  Forall (fun d => isdir w d = true) (dir_listbox self) /\
  (saved_directories self = directories (music_db self) \/
   (saved_directories self = stored /\
    directories (music_db self) = directories (music_db start))).
Proof.
  intros Hempty start self.
  assert (Hok : directory_list_ok w start self).
  { subst self. pose proof (App_init_ok w stored exts) as Hstart. fold start in Hstart.
    revert Hstart. generalize start at 2 4. intros cur Hcur.
    revert cur Hcur. induction events as [|event events IH]; intros cur Hcur; cbn [foldl].
    - exact Hcur.
    - apply IH. destruct event; cbn [App_handle].
      + apply App_add_directory_ok, Hcur.
      + apply App_remove_directory_ok; assumption. }
  destruct Hok as (H1 & H2 & H3 & H4). rewrite H1. split_and!; auto.
Qed.

Lemma directory_list_shows_database_witness :
  dir_listbox sample_app = directories (music_db sample_app) /\
  NoDup (dir_listbox sample_app) /\
  Forall (fun d => isdir rooted_world d = true) (dir_listbox sample_app) /\
  (saved_directories sample_app = directories (music_db sample_app) \/
   (saved_directories sample_app = [lit "/music"; lit "music"; lit "/music"] /\
    directories (music_db sample_app)
    = directories (music_db (App__init__ rooted_world
                               [lit "/music"; lit "music"; lit "/music"] ∅)))).
Proof.
  apply (directory_list_shows_database rooted_world
           [lit "/music"; lit "music"; lit "/music"] ∅
           [Add_directory (lit "/more"); Remove_directory [0%nat]; Remove_directory [5%nat]]).
  reflexivity.
Defined.

(** ** Copying files *)

Lemma lit_inj (a b : string) : lit a = lit b -> a = b.
Proof.
  unfold lit. intros E. rewrite <- (string_of_list_ascii_of_string a),
    <- (string_of_list_ascii_of_string b), E. reflexivity.
Qed.

Lemma numbered_name_inj (name ext : str) (j k : Z) :
  numbered_name name j ext = numbered_name name k ext -> j = k.
Proof.
  unfold numbered_name. intros E.
  apply app_inv_head in E. apply app_inv_head in E.
  rewrite !app_assoc in E. apply app_inv_tail in E. apply app_inv_tail in E.
  apply lit_inj in E. apply (inj pretty) in E. exact E.
Qed.

Lemma numbered_name_head (name ext : str) (k : Z) :
  exists c rest, name ++ lit " (" = c :: rest /\
    forall k, numbered_name name k ext = c :: rest ++ lit (pretty k) ++ lit ")" ++ ext.
Proof.
  destruct name as [|c name].
  - exists " "%char, (lit "("). split; [reflexivity|]. intros. reflexivity.
  - exists c, (name ++ lit " ("). split; [reflexivity|]. intros k'.
    unfold numbered_name. cbn [app]. rewrite <- !app_assoc. reflexivity.
Qed.

Lemma startswith_nil (s : str) : startswith s [] = true.
Proof. destruct s; reflexivity. Qed.

Lemma numbered_path_inj (output_dir name ext : str) (j k : Z) :
  path_join output_dir (numbered_name name j ext)
  = path_join output_dir (numbered_name name k ext) -> j = k.
Proof.
  destruct (numbered_name_head name ext 0) as (c & rest & _ & Hn).
  intros E. apply (numbered_name_inj name ext).
  unfold path_join in E. rewrite !Hn in E |- *.
  change (startswith (c :: ?s) (lit "/")) with (chr_eqb "/" c && startswith s []) in E.
  rewrite !startswith_nil in E.
  destruct (chr_eqb "/" c && true); [exact E|].
  destruct (negb (truthy output_dir) || _).
  - eapply app_inv_head, E.
  - apply app_inv_head in E. eapply app_inv_head, E.
Qed.

Lemma find_counter_finds `{Shutil} (fs : FS) (output_dir name ext : str) :
  forall (fuel : nat) (paths : gset str) (counter : Z),
    (forall k, counter <= k ->
       path_exists fs (path_join output_dir (numbered_name name k ext)) = true ->
       path_join output_dir (numbered_name name k ext) ∈ paths) ->
    (base.size paths < fuel)%nat ->
    exists k, find_counter fuel fs output_dir name ext counter = Some k /\
              counter <= k /\
              path_exists fs (path_join output_dir (numbered_name name k ext)) = false /\
              forall j, counter <= j < k ->
                path_exists fs (path_join output_dir (numbered_name name j ext)) = true.
Proof.
  induction fuel as [|fuel IH]; intros paths counter Hpaths Hsize; [lia|].
  cbn [find_counter].
  destruct (path_exists fs (path_join output_dir (numbered_name name counter ext))) eqn:E.
  - assert (Hin : path_join output_dir (numbered_name name counter ext) ∈ paths)
      by (apply Hpaths; [lia | exact E]).
    destruct (IH (paths ∖ {[path_join output_dir (numbered_name name counter ext)]})
                 (counter + 1)) as (k & Hk & Hle & Hfree & Hbelow).
    + intros k Hk Hex. apply elem_of_difference. split; [apply Hpaths; [lia | exact Hex]|].
      intros Heq. apply elem_of_singleton in Heq. apply numbered_path_inj in Heq. lia.
    + pose proof (size_difference paths
        {[path_join output_dir (numbered_name name counter ext)]}) as Hd.
      rewrite size_singleton in Hd.
      assert (Hnz : (base.size paths <> 0)%nat).
      { intros Hz. apply size_empty_inv in Hz. set_solver. }
      rewrite Hd by set_solver. lia.
    + exists k. split_and!; [exact Hk | lia | exact Hfree |].
      intros j Hj. destruct (decide (j = counter)) as [->|Hne]; [exact E|].
      apply Hbelow. lia.
  - exists counter. split_and!; [reflexivity | lia | exact E | intros j Hj; lia].
Qed.

Lemma choose_dest_path_free `{Shutil} (fs : FS) (output_dir file_path : str)
    (paths : gset str) (fuel : nat) :
  (forall p, path_exists fs p = true -> p ∈ paths) ->
  (base.size paths < fuel)%nat ->
  exists dest_path, choose_dest_path fuel fs output_dir file_path = Some dest_path /\
                    at_path fs dest_path = None.
Proof.
  intros Hpaths Hsize. unfold choose_dest_path.
  assert (Hnone : forall p, path_exists fs p = false -> at_path fs p = None).
  { intros p. unfold path_exists. destruct (at_path fs p); [discriminate | reflexivity]. }
  destruct (path_exists fs (path_join output_dir (basename file_path))) eqn:E.
  - destruct (splitext (basename file_path)) as [name ext].
    destruct (find_counter_finds fs output_dir name ext fuel paths 1)
      as (k & -> & _ & Hk & _).
    + intros k _. apply Hpaths.
    + exact Hsize.
    + eexists. split; [reflexivity | apply Hnone, Hk].
  - eexists. split; [reflexivity | apply Hnone, E].
Qed.

Lemma copy_loop_spec `{Shutil} (output_dir : str) (fuel : nat) (files : list str) :
  (forall (fs : FS) (src dst p : str),
     at_path fs dst = None -> p <> dst ->
     at_path (snd (copy2 fs src dst)) p = at_path fs p) ->
  forall (fs : FS) (paths : gset str) (copied failed : Z),
    (forall p, path_exists fs p = true -> p ∈ paths) ->
    (base.size paths + length files < fuel)%nat ->
    exists copied' failed' fs',
      copy_loop fuel files output_dir copied failed fs = Some (copied', failed', fs') /\
      copied <= copied' /\ failed <= failed' /\
      copied' + failed' = copied + failed + Z.of_nat (length files) /\
      forall p, path_exists fs p = true -> at_path fs' p = at_path fs p.
Proof.
  intros copy2_frame.
  induction files as [|file_path files IH]; intros fs paths copied failed Hpaths Hsize.
  - exists copied, failed, fs. cbn [copy_loop length]. split_and!; [reflexivity|lia|lia|lia|auto].
  - cbn [copy_loop]. cbn [length] in Hsize.
    destruct (choose_dest_path_free fs output_dir file_path paths fuel Hpaths)
      as (dest_path & -> & Hfree); [lia|].
    pose proof (copy2_frame fs file_path dest_path) as Hframe.
    destruct (copy2 fs file_path dest_path) as [returned fs1]. cbn [snd] in Hframe.
    assert (Hkept : forall p, path_exists fs p = true -> at_path fs1 p = at_path fs p).
    { intros p Hp. apply Hframe; [exact Hfree|]. intros ->.
      unfold path_exists in Hp. rewrite Hfree in Hp. discriminate. }
    assert (Hpaths1 : forall p, path_exists fs1 p = true -> p ∈ ({[dest_path]} ∪ paths)).
    { intros p Hp. destruct (decide (p = dest_path)) as [->|Hne].
      { apply elem_of_union_l, elem_of_singleton. reflexivity. }
      apply elem_of_union_r, Hpaths. unfold path_exists in *.
      rewrite <- (Hframe p Hfree Hne). exact Hp. }
    assert (Hsize1 : (base.size ({[dest_path]} ∪ paths) + length files < fuel)%nat).
    { pose proof (size_union_alt {[dest_path]} paths) as Hu.
      pose proof (subseteq_size (paths ∖ {[dest_path]}) paths) as Hs.
      rewrite size_singleton in Hu. rewrite Hu.
      assert (Hle : (base.size (paths ∖ {[dest_path]}) <= base.size paths)%nat).
      { apply Hs. apply subseteq_difference_l. reflexivity. }
      lia. }
    destruct returned.
    + destruct (IH fs1 _ (copied + 1) failed Hpaths1 Hsize1)
        as (c & f & fs' & -> & Hc & Hf & Hsum & Hsame).
      exists c, f, fs'. split_and!; [reflexivity|lia|lia|cbn [length]; lia|].
      intros p Hp. rewrite <- (Hkept p Hp). apply Hsame.
      unfold path_exists in *. rewrite (Hkept p Hp). exact Hp.
    + destruct (IH fs1 _ copied (failed + 1) Hpaths1 Hsize1)
        as (c & f & fs' & -> & Hc & Hf & Hsum & Hsame).
      exists c, f, fs'. split_and!; [reflexivity|lia|lia|cbn [length]; lia|].
      intros p Hp. rewrite <- (Hkept p Hp). apply Hsame.
      unfold path_exists in *. rewrite (Hkept p Hp). exact Hp.
Qed.

(** X20. Copying never overwrites. When [shutil.copy2] to a path where
    nothing exists leaves every other path as it was, and finitely many
    paths exist, the copy worker ends for every list of files, counts each
    file as copied or as failed, and leaves every path that existed before
    with what it held. *)
Theorem copy_never_overwrites `{Shutil} (files : list str) (output_dir : str) (fs : FS)
    (paths : gset str) (fuel : nat) :
  (forall (fs : FS) (src dst p : str),
     at_path fs dst = None -> p <> dst ->
     at_path (snd (copy2 fs src dst)) p = at_path fs p) ->
  (forall p, path_exists fs p = true -> p ∈ paths) ->
  (base.size paths + length files < fuel)%nat ->
  exists copied failed fs',
    _copy_worker fuel files output_dir fs = Some (copied, failed, fs') /\
    0 <= copied /\ 0 <= failed /\
    copied + failed = Z.of_nat (length files) /\
    forall p, path_exists fs p = true -> at_path fs' p = at_path fs p.
Proof.
  intros Hframe Hpaths Hsize. unfold _copy_worker.
  destruct (copy_loop_spec output_dir fuel files Hframe fs paths 0 0 Hpaths Hsize)
    as (c & f & fs' & -> & Hc & Hf & Hsum & Hsame).
  exists c, f, fs'. split_and!; [reflexivity | lia | lia | lia | exact Hsame].
Qed.

(** X21. The destination of a copy is a path where nothing exists: the
    output directory joined with the name of the file when that is free,
    and otherwise with the name numbered by the first counter from 1 on
    whose path is free. With finitely many existing paths the search for
    the counter ends. *)
Theorem chosen_destination_is_free `{Shutil} (fs : FS) (output_dir file_path : str)
    (paths : gset str) (fuel : nat) :
  (forall p, path_exists fs p = true -> p ∈ paths) ->
  (base.size paths < fuel)%nat ->
  let filename := basename file_path in
  let name := fst (splitext filename) in
  let ext := snd (splitext filename) in
  exists dest_path,
    choose_dest_path fuel fs output_dir file_path = Some dest_path /\
    path_exists fs dest_path = false /\
    ((path_exists fs (path_join output_dir filename) = false /\
      dest_path = path_join output_dir filename) \/
     (path_exists fs (path_join output_dir filename) = true /\
      exists counter,
        1 <= counter /\
        dest_path = path_join output_dir (numbered_name name counter ext) /\
        forall j, 1 <= j < counter ->
          path_exists fs (path_join output_dir (numbered_name name j ext)) = true)).
Proof.
  intros Hpaths Hsize. cbv zeta. unfold choose_dest_path.
  destruct (path_exists fs (path_join output_dir (basename file_path))) eqn:E.
  - destruct (splitext (basename file_path)) as [name ext]. cbn [fst snd].
    destruct (find_counter_finds fs output_dir name ext fuel paths 1)
      as (k & -> & Hle & Hk & Hbelow).
    + intros k _. apply Hpaths.
    + exact Hsize.
    + eexists. split_and!; [reflexivity | exact Hk |]. right.
      split; [reflexivity|]. exists k. split_and!; [exact Hle | reflexivity | exact Hbelow].
  - eexists. split_and!; [reflexivity | exact E |]. left. split; reflexivity.
Qed.

Lemma map_shutil_frame (fs : gmap str str) (src dst p : str) :
  p <> dst ->
  @at_path map_shutil (snd (@copy2 map_shutil fs src dst)) p = @at_path map_shutil fs p.
Proof.
  intros Hne. cbn. destruct (fs !! src); cbn [snd]; [|reflexivity].
  apply lookup_insert_ne. congruence.
Qed.

Lemma map_shutil_paths (fs : gmap str str) (p : str) :
  @path_exists map_shutil fs p = true -> p ∈ (dom fs : gset str).
Proof.
  unfold path_exists. cbn. intros Hp. apply elem_of_dom.
  destruct (fs !! p); [eauto | discriminate].
Qed.

Lemma copy_never_overwrites_witness :
  exists copied failed fs',
    @_copy_worker map_shutil 6 [lit "/music/a.mp3"; lit "/nowhere/b.mp3"] (lit "/out") sample_fs
    = Some (copied, failed, fs') /\
    0 <= copied /\ 0 <= failed /\
    copied + failed = 2 /\
    forall p, @path_exists map_shutil sample_fs p = true ->
              @at_path map_shutil fs' p = @at_path map_shutil sample_fs p.
Proof.
  apply (@copy_never_overwrites map_shutil) with (paths := (dom sample_fs : gset str)).
  - intros fs src dst p _. apply map_shutil_frame.
  - apply map_shutil_paths.
  - vm_compute. lia.
Defined.

Lemma chosen_destination_is_free_witness :
  exists dest_path,
    @choose_dest_path map_shutil 4 sample_fs (lit "/out") (lit "/music/a.mp3")
    = Some dest_path /\
    @path_exists map_shutil sample_fs dest_path = false /\
    dest_path = lit "/out/a (2).mp3".
Proof.
  destruct (@chosen_destination_is_free map_shutil sample_fs (lit "/out")
              (lit "/music/a.mp3") (dom sample_fs : gset str) 4)
    as (dest_path & Hdest & Hfree & _).
  - apply map_shutil_paths.
  - vm_compute. lia.
  - exists dest_path. split_and!; [exact Hdest | exact Hfree |].
    vm_compute in Hdest. injection Hdest as <-. reflexivity.
Defined.
